(** * deletetsm: bulk deletion of series from raw TSM files

    A shallow embedding of [cmd/influx_inspect/deletetsm/deletetsm.go] and a
    verification of its rewrite engine: the segment locator
    ([walkTSMFiles]), the series filter loader ([parseSeriesFile]), the
    block rewriter ([processTSMFile], [formatSerieKey]) and the orchestrator
    ([deleteFromTSMFiles], [deleteSeries], [Run]).

    Go strings and byte slices are Rocq strings (sequences of 8-bit
    characters).  The [Command] struct is passed explicitly and returned by
    the two methods that mutate it; the file system, standard output and the
    logger are threaded through a state-and-error monad. *)

From Stdlib Require Import ZArith Ascii.
From stdpp Require Import base option list sorting gmap strings.

Open Scope string_scope.
Open Scope list_scope.

(** ** Strings: the pieces of the Go standard library the command relies on *)

Definition PathSeparator : ascii := "/"%char.

(** [filepath.Ext]: scan from the end of the path towards the front, stop at
    a separator, return the suffix that starts at the first dot met. *)
Fixpoint ext_loop (before : list ascii) (suffix : string) : string :=
  match before with
  | [] => ""
  | c :: before' =>
      if Ascii.eqb c PathSeparator then ""
      else if Ascii.eqb c "."%char then String c suffix
      else ext_loop before' (String c suffix)
  end.

Definition filepath_Ext (path : string) : string :=
  ext_loop (rev (String.list_ascii_of_string path)) "".

(** [strings.Split s sep] for a one-byte separator: all the pieces between
    separators; the empty string gives one empty piece. *)
Fixpoint strings_Split (s : string) (sep : ascii) : list string :=
  match s with
  | EmptyString => [""]
  | String c rest =>
      if Ascii.eqb c sep then "" :: strings_Split rest sep
      else match strings_Split rest sep with
           | piece :: pieces => String c piece :: pieces
           | [] => [String c ""]
           end
  end.

(** [bufio.ScanLines]: the tokens are the newline-terminated lines and a
    last unterminated line when it is not empty, each without one trailing
    carriage return. *)
Fixpoint dropCR (s : string) : string :=
  match s with
  | EmptyString => ""
  | String c EmptyString => if Ascii.eqb c "013"%char then "" else s
  | String c rest => String c (dropCR rest)
  end.

Fixpoint drop_last_empty (pieces : list string) : list string :=
  match pieces with
  | [] => []
  | [""] => []
  | p :: ps => p :: drop_last_empty ps
  end.

Definition scanLines (data : string) : list string :=
  map dropCR (drop_last_empty (strings_Split data "010"%char)).

(** [sort.Strings]: ascending order of Go's [<] on strings, which compares
    byte by byte. *)
Definition sort_Strings (files : list string) : list string :=
  merge_sort String.le files.

(** ** Data model *)

(** [models.Tag]: one tag of a series. *)
Record Tag := mkTag { Key : string; Value : string }.

(** A block as the block iterator of a TSM reader yields it and as
    [WriteBlock] takes it: composite key, time range (int64 nanoseconds) and
    the encoded payload. *)
Record Block := mkBlock {
  blk_key : string;
  blk_minTime : Z;
  blk_maxTime : Z;
  blk_block : string
}.

#[global] Instance Block_eq_dec : EqDecision Block.
Proof. solve_decision. Defined.

(** A regular file: a finalized TSM file with its blocks in on-disk order,
    or anything else (a text file, a file still being written). *)
Inductive File :=
  | Segment (blocks : list Block)
  | Other (data : string).

(** The calls into the operating system and into the tsm1 reader and writer
    that can fail, each with the path it acts on. *)
Inductive IOOp :=
  | OpOpen (path : string)
  | OpNewTSMReader (path : string)
  | OpRemoveAll (path : string)
  | OpCreate (path : string)
  | OpNewTSMWriter (path : string)
  | OpRead (path : string) (i : nat)
  | OpWriteBlock (path : string) (i : nat)
  | OpWriteIndex (path : string)
  | OpClose (path : string)
  | OpRename (oldpath newpath : string)
  | OpScan (path : string) (i : nat).

(** Go [error] values, by origin (the taxonomy of the specification). *)
Inductive error :=
  | IOError (op : IOOp)
  | ReadError (path : string) (cause : error)
  | StructuralError (path : string)
  | UsageError (msg : string)
  | WalkError (path : string)
  | KeyParseError (key : string).

Abbreviation Result A := (error + A)%type.

(** What [filepath.Walk] hands to its callback: a path and the error met on
    the way to it, if any. *)
Record WalkVisit := mkVisit { wv_path : string; wv_err : option error }.

(** Lines written to the standard output. *)
Inductive Output :=
  | OutSeries (k : string)
  | OutProcessingUnit (key : string)
  | OutProcessingFile (file : string)
  | OutDropped (droppedBlocksCount : nat).

(** Lines written through the [log] package. *)
Inductive LogLine :=
  | LogCreatingTemp (outputPath : string)
  | LogDeletingBlock (key : string) (minTime maxTime : Z) (sz : nat).

(** The world outside the command: regular files by path, what was printed,
    what was logged and whether the logger discards its output. *)
Record World := mkWorld {
  files : gmap string File;
  stdout : list Output;
  logged : list LogLine;
  log_discard : bool
}.

(** [Command]: the flag fields and the two maps the run fills. *)
Record Command := mkCommand {
  dataDir : string;
  database : string;
  retentionPolicy : string;
  seriesFile : string;
  sanitize : bool;
  verbose : bool;
  tsmFiles : gmap string (list string);
  series : gmap string bool
}.

Definition set_tsmFiles (cmd : Command) (m : gmap string (list string)) : Command :=
  mkCommand cmd.(dataDir) cmd.(database) cmd.(retentionPolicy) cmd.(seriesFile)
            cmd.(sanitize) cmd.(verbose) m cmd.(series).

Definition set_series (cmd : Command) (m : gmap string bool) : Command :=
  mkCommand cmd.(dataDir) cmd.(database) cmd.(retentionPolicy) cmd.(seriesFile)
            cmd.(sanitize) cmd.(verbose) cmd.(tsmFiles) m.

Definition set_sanitize (cmd : Command) (b : bool) : Command :=
  mkCommand cmd.(dataDir) cmd.(database) cmd.(retentionPolicy) cmd.(seriesFile)
            b cmd.(verbose) cmd.(tsmFiles) cmd.(series).

(** [NewCommand]: both maps start empty. *)
Definition NewCommand : Command :=
  mkCommand "" "" "" "" false false ∅ ∅.

(** ** Collaborators

    The functions of other packages the command calls.  Their code is not
    part of the command; the development is parametric in them and uses only
    their Go signatures. *)
Class Collaborators := {
  (** [tsm1.TSMFileExtension] *)
  TSMFileExtension : string;
  (** [tsm1.SeriesAndFieldFromCompositeKey]: two byte slices, no error *)
  SeriesAndFieldFromCompositeKey : string → string * string;
  (** [models.ParseKey]: measurement and tags, no error *)
  ParseKey : string → string * list Tag;
  (** the visits of [filepath.Walk root] on a file system, in its order *)
  filepath_Walk : gmap string File → string → list WalkVisit;
  (** [filepath.Rel basepath targpath] *)
  filepath_Rel : string → string → Result string;
  (** [filepath.Join] of two elements *)
  filepath_Join : string → string → string;
  (** [flag.FlagSet.Parse] into the flag fields of the command *)
  flag_Parse : Command → list string → Result Command;
  (** the bytes of a finalized TSM file holding these blocks *)
  segment_bytes : list Block → string;
  (** the order in which a [range] loop meets the keys of a map *)
  range_keys : ∀ {A}, gmap string A → list string;
  range_keys_perm : ∀ A (m : gmap string A), range_keys m ≡ₚ (map_to_list m).*1
}.

(** ** The state-and-error monad of the command *)

Definition IO (A : Type) : Type := World → Result A * World.

Definition ret {A} (a : A) : IO A := λ w, (inr a, w).
Definition fail {A} (e : error) : IO A := λ w, (inl e, w).
Definition bind {A B} (m : IO A) (k : A → IO B) : IO B :=
  λ w, match m w with
       | (inl e, w') => (inl e, w')
       | (inr a, w') => k a w'
       end.

Declare Scope io_scope.
Delimit Scope io_scope with io.
Notation "x <- c1 ;; c2" := (bind c1 (λ x, c2))
  (at level 100, c1 at next level, right associativity) : io_scope.
Notation "c1 ;; c2" := (bind c1 (λ _, c2))
  (at level 100, right associativity) : io_scope.

(** The [error] a Go function returns: [nil] is [None]. *)
Definition returned {A} (r : Result A * World) : option error :=
  match r.1 with inl e => Some e | inr _ => None end.

Section Deletetsm.

Context {C : Collaborators}.

(** The environment decides which calls fail. *)
Variable fault : IOOp → bool.

Open Scope io_scope.

(** A call that either fails with its own [IOError] or does nothing
    observable. *)
Definition attempt (op : IOOp) : IO unit :=
  λ w, if fault op then (inl (IOError op), w) else (inr (), w).

(** ** Operating system and tsm1 calls *)

(** [os.Open]: the file must exist; the handle is the path. *)
Definition os_Open (path : string) : IO string :=
  λ w, if fault (OpOpen path) then (inl (IOError (OpOpen path)), w)
       else match w.(files) !! path with
            | Some _ => (inr path, w)
            | None => (inl (IOError (OpOpen path)), w)
            end.

(** [path] itself or something below it. *)
Definition under (root path : string) : bool :=
  bool_decide (path = root) || String.prefix (root +:+ "/") path.

(** [os.RemoveAll]: removes the path and everything below it; a missing
    path is not an error. *)
Definition os_RemoveAll (path : string) : IO unit :=
  λ w, if fault (OpRemoveAll path) then (inl (IOError (OpRemoveAll path)), w)
       else (inr (),
             mkWorld (filter (λ kv, under path kv.1 = false) w.(files))
                     w.(stdout) w.(logged) w.(log_discard)).

(** [os.Create]: creates or truncates; the handle is the path. *)
Definition os_Create (path : string) : IO string :=
  λ w, if fault (OpCreate path) then (inl (IOError (OpCreate path)), w)
       else (inr path,
             mkWorld (<[path := Other ""]> w.(files))
                     w.(stdout) w.(logged) w.(log_discard)).

(** [os.Rename]: the new path takes the content of the old one, which
    disappears. *)
Definition os_Rename (oldpath newpath : string) : IO unit :=
  λ w, if fault (OpRename oldpath newpath)
       then (inl (IOError (OpRename oldpath newpath)), w)
       else match w.(files) !! oldpath with
            | Some f =>
                (inr (),
                 mkWorld (<[newpath := f]> (delete oldpath w.(files)))
                         w.(stdout) w.(logged) w.(log_discard))
            | None => (inl (IOError (OpRename oldpath newpath)), w)
            end.

(** [fmt.Fprintf cmd.Stdout] and [fmt.Println]. *)
Definition fmt_Print (line : Output) : IO unit :=
  λ w, (inr (), mkWorld w.(files) (w.(stdout) ++ [line]) w.(logged) w.(log_discard)).

(** [log.Printf]: nothing is kept once the output is [ioutil.Discard]. *)
Definition log_append (line : LogLine) (w : World) : World :=
  if w.(log_discard) then w
  else mkWorld w.(files) w.(stdout) (w.(logged) ++ [line]) w.(log_discard).

Definition log_Printf (line : LogLine) : IO unit :=
  λ w, (inr (), log_append line w).

(** [log.SetOutput ioutil.Discard]. *)
Definition log_SetOutput_Discard : IO unit :=
  λ w, (inr (), mkWorld w.(files) w.(stdout) w.(logged) true).

(** Modelled from the spec: the reader of package tsm1, "a lazy sequence of
    (compositeKey, minTime, maxTime, blockPayload) tuples in file order".
    A reader holds the path it reads and the blocks its iterator yields. *)
Record TSMReader := mkReader { r_path : string; r_blocks : list Block }.

(** Modelled from the spec: the writer of package tsm1, which "accepts
    blocks to append plus a request to finalize an index".  A writer holds
    the path it writes and the blocks it was given so far. *)
Record TSMWriter := mkWriter { w_path : string; w_written : list Block }.

(** Modelled from the spec: [tsm1.NewTSMReader], which fails when the
    "header/index is unreadable"; the file must be a finalized TSM file. *)
Definition NewTSMReader (input : string) : IO TSMReader :=
  λ w, if fault (OpNewTSMReader input) then (inl (IOError (OpNewTSMReader input)), w)
       else match w.(files) !! input with
            | Some (Segment blocks) => (inr (mkReader input blocks), w)
            | _ => (inl (IOError (OpNewTSMReader input)), w)
            end.

(** Modelled from the spec: [tsm1.NewTSMWriter], "open a segment writer"
    on the created file. *)
Definition NewTSMWriter (output : string) : IO TSMWriter :=
  attempt (OpNewTSMWriter output);; ret (mkWriter output []).

(** Modelled from the spec: [itr.Read] of the block at position [i] of the
    block iterator of package tsm1. *)
Definition itr_Read (r : TSMReader) (i : nat) (b : Block) : IO Block :=
  attempt (OpRead r.(r_path) i);; ret b.

(** Modelled from the spec: [w.WriteBlock] of package tsm1, "append the
    block verbatim (key, time range, payload)". *)
Definition WriteBlock (tw : TSMWriter) (key : string) (minTime maxTime : Z)
    (block : string) : IO TSMWriter :=
  attempt (OpWriteBlock tw.(w_path) (length tw.(w_written)));;
  ret (mkWriter tw.(w_path) (tw.(w_written) ++ [mkBlock key minTime maxTime block])).

(** Modelled from the spec: [w.WriteIndex] of package tsm1, "finalize its
    index". *)
Definition WriteIndex (tw : TSMWriter) : IO unit :=
  attempt (OpWriteIndex tw.(w_path)).

(** Modelled from the spec: [w.Close] of package tsm1; after it the file is
    a finalized TSM file holding the blocks written. *)
Definition Close (tw : TSMWriter) : IO unit :=
  attempt (OpClose tw.(w_path));;
  λ w, (inr (),
        mkWorld (<[tw.(w_path) := Segment tw.(w_written)]> w.(files))
                w.(stdout) w.(logged) w.(log_discard)).

(** The bytes a plain read of the file sees. *)
Definition file_bytes (f : File) : string :=
  match f with
  | Segment blocks => segment_bytes blocks
  | Other data => data
  end.

(** A call whose returned error is not looked at. *)
Definition discard_error {A} (m : IO A) : IO unit :=
  λ w, (inr (), (m w).2).

(** ** walkTSMFiles *)

(** The callback given to [filepath.Walk]. *)
Definition walkFn (cmd : Command) (path : string) (err : option error)
    : option error * Command :=
  match err with
  | Some err => (Some err, cmd)
  | None =>
      (* check to see if this is a tsm file *)
      if negb (bool_decide (filepath_Ext path = "." +:+ TSMFileExtension)) then (None, cmd)
      else
        match filepath_Rel cmd.(dataDir) path with
        | inl err => (Some err, cmd)
        | inr relPath =>
            let dirs := strings_Split relPath PathSeparator in
            if bool_decide (length dirs < 2)%nat then (Some (StructuralError path), cmd)
            else
              let d0 := default "" (dirs !! 0%nat) in
              let d1 := default "" (dirs !! 1%nat) in
              if bool_decide (d0 = cmd.(database)) || bool_decide (cmd.(database) = "") then
                if bool_decide (d1 = cmd.(retentionPolicy))
                   || bool_decide (cmd.(retentionPolicy) = "") then
                  let key := filepath_Join d0 d1 in
                  (None,
                   set_tsmFiles cmd
                     (<[key := default [] (cmd.(tsmFiles) !! key) ++ [path]]> cmd.(tsmFiles)))
                else (None, cmd)
              else (None, cmd)
        end
  end.

(** [filepath.Walk]: the callback is run on the visits in order, and the
    first error it returns ends the walk. *)
Fixpoint walk_loop (visits : list WalkVisit) (cmd : Command) : option error * Command :=
  match visits with
  | [] => (None, cmd)
  | v :: visits' =>
      match walkFn cmd v.(wv_path) v.(wv_err) with
      | (Some err, cmd') => (Some err, cmd')
      | (None, cmd') => walk_loop visits' cmd'
      end
  end.

Definition walkTSMFiles (cmd : Command) (w : World) : option error * Command :=
  walk_loop (filepath_Walk w.(files) cmd.(dataDir)) cmd.

(** ** parseSeriesFile *)

(** The [scanner.Scan] loop: [i] counts the calls to [Scan]; a failing read
    ends the loop and is what [scanner.Err] reports. *)
Fixpoint scan_loop (file : string) (i : nat) (lines : list string) (cmd : Command)
    : option error * Command :=
  if fault (OpScan file i) then (Some (IOError (OpScan file i)), cmd)
  else match lines with
       | [] => (None, cmd)
       | text :: lines' =>
           scan_loop file (S i) lines' (set_series cmd (<[text := true]> cmd.(series)))
       end.

Definition parseSeriesFile (cmd : Command) (w : World) : option error * Command :=
  match os_Open cmd.(seriesFile) w with
  | (inl err, _) => (Some err, cmd)
  | (inr file, _) =>
      let data := from_option file_bytes "" (w.(files) !! file) in
      scan_loop file 0 (scanLines data) cmd
  end.

(** ** formatSerieKey *)

(** The loop over the tags: [idx] is the position, [n] is [len(tags)]. *)
Fixpoint formatTags (idx : nat) (n : nat) (tags : list Tag) (b : string) : string :=
  match tags with
  | [] => b
  | tag :: tags' =>
      let b := b +:+ tag.(Key) +:+ "=" +:+ tag.(Value) in
      let b := if (Z.of_nat idx <? Z.of_nat n - 1)%Z then b +:+ "," else b in
      formatTags (S idx) n tags' b
  end.

Definition formatSerieKey (cmd : Command) (seriesBytes : string) : string * option error :=
  let '(measurement, tags) := ParseKey seriesBytes in
  let b := "" +:+ measurement +:+ "," in
  (formatTags 0 (length tags) tags b, None).

(** ** processTSMFile *)

(** The loop over the input blocks: [i] is the position of the block read,
    [tw] the writer, and the count is [droppedBlocksCount] (a Go [int]; it
    counts blocks of one file and stays far below the bound of the type). *)
Fixpoint rewriteBlocks (cmd : Command) (r : TSMReader) (i : nat) (blocks : list Block)
    (tw : TSMWriter) (droppedBlocksCount : nat) : IO (TSMWriter * nat) :=
  match blocks with
  | [] => ret (tw, droppedBlocksCount)
  | b :: blocks' =>
      (* Read key & time range. *)
      blk <- itr_Read r i b;;
      (* Skip block if this is the measurement and time range we are deleting. *)
      let seriesBytes := (SeriesAndFieldFromCompositeKey blk.(blk_key)).1 in
      match formatSerieKey cmd seriesBytes with
      | (_, Some err) => fail err
      | (serieKey, None) =>
          match cmd.(series) !! serieKey with
          | Some _ =>
              log_Printf (LogDeletingBlock blk.(blk_key) blk.(blk_minTime) blk.(blk_maxTime)
                                           (String.length blk.(blk_block)));;
              rewriteBlocks cmd r (S i) blocks' tw (droppedBlocksCount + 1)
          | None =>
              tw' <- WriteBlock tw blk.(blk_key) blk.(blk_minTime) blk.(blk_maxTime)
                                blk.(blk_block);;
              rewriteBlocks cmd r (S i) blocks' tw' droppedBlocksCount
          end
      end
  end.

(** The deferred [input.Close], [r.Close], [output.Close] and [w.Close] only
    release handles: on an error path the temporary file stays as it was
    created, not a finalized segment. *)
Definition processTSMFile (cmd : Command) (path : string) : IO unit :=
  (* Open TSM reader. *)
  input <- os_Open path;;
  r <- (λ w, match NewTSMReader input w with
             | (inl err, w') => (inl (ReadError path err), w')
             | ok => ok
             end);;
  (* Remove previous temporary files. *)
  let outputPath := path +:+ ".rewriting.tmp" in
  os_RemoveAll outputPath;;
  os_RemoveAll (outputPath +:+ ".idx.tmp");;
  log_Printf (LogCreatingTemp outputPath);;
  (* Create TSMWriter to temporary location. *)
  output <- os_Create outputPath;;
  tw <- NewTSMWriter output;;
  (* Iterate over the input blocks. *)
  res <- rewriteBlocks cmd r 0 r.(r_blocks) tw 0;;
  fmt_Print (OutDropped res.2);;
  (* Write index & close. *)
  WriteIndex res.1;;
  Close res.1;;
  (* Replace original file with new file. *)
  os_Rename outputPath path.

(** ** deleteFromTSMFiles, deleteSeries *)

Fixpoint processFiles (cmd : Command) (files : list string) : IO unit :=
  match files with
  | [] => ret ()
  | file :: files' =>
      fmt_Print (OutProcessingFile file);;
      discard_error (processTSMFile cmd file);;
      processFiles cmd files'
  end.

(** [sort.Strings] sorts the slice in place; the slice held by
    [cmd.tsmFiles] shares its array and is not read again.  The value of
    [cmd.processTSMFile(file)] is not assigned. *)
Definition deleteFromTSMFiles (cmd : Command) (files : list string) : IO unit :=
  (* we need to make sure we write the same order that the files were written *)
  let files := sort_Strings files in
  processFiles cmd files;;
  ret ().

(** The loop of [deleteSeries] over the keys the [range] met. *)
Fixpoint deleteSeries_loop (cmd : Command) (keys : list string) : IO unit :=
  match keys with
  | [] => ret ()
  | key :: keys' =>
      match cmd.(tsmFiles) !! key with
      | Some files =>
          fmt_Print (OutProcessingUnit key);;
          deleteFromTSMFiles cmd files;;
          deleteSeries_loop cmd keys'
      | None => deleteSeries_loop cmd keys'
      end
  end.

Definition deleteSeries (cmd : Command) : IO unit :=
  deleteSeries_loop cmd (range_keys cmd.(tsmFiles)).

(** ** Run *)

Fixpoint printSeries (keys : list string) : IO unit :=
  match keys with
  | [] => ret ()
  | k :: keys' => fmt_Print (OutSeries k);; printSeries keys'
  end.

Definition Run (cmd : Command) (args : list string) (w : World)
    : option error * Command * World :=
  match flag_Parse cmd args with
  | inl err => (Some err, cmd, w)
  | inr cmd =>
      let w := if negb cmd.(verbose) then (log_SetOutput_Discard w).2 else w in
      if bool_decide (cmd.(seriesFile) = "")
      then (Some (UsageError "-seriesFile flag required"), cmd, w)
      else
        match walkTSMFiles cmd w with
        | (Some err, cmd) => (Some err, cmd, w)
        | (None, cmd) =>
            match parseSeriesFile cmd w with
            | (Some err, cmd) => (Some err, cmd, w)
            | (None, cmd) =>
                let w := (printSeries (range_keys cmd.(series)) w).2 in
                match deleteSeries cmd w with
                | (inl err, w) => (Some err, cmd, w)
                | (inr _, w) => (None, cmd, w)
                end
            end
        end
  end.

End Deletetsm.

(** ** A concrete environment

    An instance of the collaborators on which the command can be run on
    concrete inputs: composite keys are a series key and a field separated
    by ["#!~#"], series keys carry no escapes, paths are clean and
    slash-separated, the walk reports the files below the root in lexical
    order without errors, and the flags are read from the arguments. *)
Module Demo.

Definition keyFieldSeparator : string := "#!~#".

Definition splitCompositeKey (key : string) : string * string :=
  match String.index 0 keyFieldSeparator key with
  | None => (key, "")
  | Some sep =>
      (String.substring 0 sep key,
       String.substring (sep + String.length keyFieldSeparator)
                        (String.length key - (sep + String.length keyFieldSeparator)) key)
  end.

Definition parseTag (s : string) : Tag :=
  match strings_Split s "="%char with
  | k :: v :: _ => mkTag k v
  | _ => mkTag s ""
  end.

Definition parseKey (buf : string) : string * list Tag :=
  match strings_Split buf ","%char with
  | name :: tags => (name, map parseTag tags)
  | [] => (buf, [])
  end.

Definition Walk (fs : gmap string File) (root : string) : list WalkVisit :=
  map (λ path, mkVisit path None)
      (merge_sort String.le (filter (λ path, under root path = true) (map_to_list fs).*1)).

Definition Rel (basepath targpath : string) : Result string :=
  if bool_decide (targpath = basepath) then inr "."
  else if String.prefix (basepath +:+ "/") targpath
       then inr (String.substring (String.length basepath + 1)
                                  (String.length targpath - (String.length basepath + 1))
                                  targpath)
       else inl (UsageError "Rel: can't make path relative").

Definition Join (a b : string) : string := a +:+ "/" +:+ b.

(** The flags of the command: [-sanitize] and [-v] are boolean, the others
    take the next argument. *)
Fixpoint parseFlags (cmd : Command) (args : list string) : Result Command :=
  match args with
  | [] => inr cmd
  | flag :: rest =>
      if String.eqb flag "-sanitize" then parseFlags (set_sanitize cmd true) rest
      else if String.eqb flag "-v" then
        parseFlags (mkCommand cmd.(dataDir) cmd.(database) cmd.(retentionPolicy)
                              cmd.(seriesFile) cmd.(sanitize) true
                              cmd.(tsmFiles) cmd.(series)) rest
      else match rest with
           | [] => inl (UsageError "flag needs an argument")
           | value :: rest' =>
               if String.eqb flag "-dataDir" then
                 parseFlags (mkCommand value cmd.(database) cmd.(retentionPolicy)
                                       cmd.(seriesFile) cmd.(sanitize) cmd.(verbose)
                                       cmd.(tsmFiles) cmd.(series)) rest'
               else if String.eqb flag "-database" then
                 parseFlags (mkCommand cmd.(dataDir) value cmd.(retentionPolicy)
                                       cmd.(seriesFile) cmd.(sanitize) cmd.(verbose)
                                       cmd.(tsmFiles) cmd.(series)) rest'
               else if String.eqb flag "-retention" then
                 parseFlags (mkCommand cmd.(dataDir) cmd.(database) value
                                       cmd.(seriesFile) cmd.(sanitize) cmd.(verbose)
                                       cmd.(tsmFiles) cmd.(series)) rest'
               else if String.eqb flag "-seriesFile" then
                 parseFlags (mkCommand cmd.(dataDir) cmd.(database) cmd.(retentionPolicy)
                                       value cmd.(sanitize) cmd.(verbose)
                                       cmd.(tsmFiles) cmd.(series)) rest'
               else inl (UsageError "flag provided but not defined")
           end
  end.

#[export] Instance collaborators : Collaborators := {|
  TSMFileExtension := "tsm";
  SeriesAndFieldFromCompositeKey := splitCompositeKey;
  ParseKey := parseKey;
  filepath_Walk := Walk;
  filepath_Rel := Rel;
  filepath_Join := Join;
  flag_Parse := parseFlags;
  segment_bytes := λ _, "";
  range_keys := λ A m, (map_to_list m).*1;
  range_keys_perm := λ A m, reflexivity _
|}.

(** No call fails. *)
Definition no_fault : IOOp → bool := λ _, false.

Definition blk (key : string) : Block := mkBlock key 0 10 "payload".

Definition segment1 : list Block :=
  [blk "cpu,host=a#!~#value"; blk "cpu,host=b#!~#value"; blk "mem,host=a#!~#value"].

Definition world1 : World :=
  mkWorld (<["/data/mydb/autogen/1/000000001-000000001.tsm" := Segment segment1]>
           (<["/series.txt" := Other "cpu,host=a"]> ∅)) [] [] false.

Definition cmd1 : Command :=
  mkCommand "/data" "mydb" "" "/series.txt" false false ∅ ∅.

Definition path1 : string := "/data/mydb/autogen/1/000000001-000000001.tsm".

(** The command once the series file is loaded. *)
Definition cmdF : Command :=
  mkCommand "/data" "mydb" "" "/series.txt" false false ∅ {["cpu,host=a" := true]}.

(** [WriteIndex] fails, every other call succeeds. *)
Definition fail_WriteIndex : IOOp → bool :=
  λ op, match op with OpWriteIndex _ => true | _ => false end.

(** A unit of two files, the first of which is not a TSM file. *)
Definition pathA : string := "/data/mydb/autogen/1/a.tsm".
Definition pathB : string := "/data/mydb/autogen/1/b.tsm".

Definition world2 : World :=
  mkWorld (<[pathA := Other "corrupt"]>
           (<[pathB := Segment segment1]>
            (<["/series.txt" := Other "cpu,host=a"]> ∅))) [] [] false.







(** A tagless series. *)
Definition taglessBlock : Block := blk "cpu#!~#value".

Definition cmdM : Command :=
  mkCommand "/data" "mydb" "" "/series.txt" false false ∅ {["cpu" := true]}.

Definition world5 : World :=
  mkWorld (<[path1 := Segment [taglessBlock]]> ∅) [] [] false.

(** A data directory with a segment file directly under it. *)
Definition pathShallow : string := "/data/x.tsm".

Definition world6 : World :=
  mkWorld (<[pathShallow := Segment segment1]>
           (<[path1 := Segment segment1]>
            (<["/series.txt" := Other "cpu,host=a"]> ∅))) [] [] false.


(** The command once the unit of [path1] is located and the series file is
    loaded. *)
Definition cmdU : Command :=
  mkCommand "/data" "mydb" "" "/series.txt" false false
            {["mydb/autogen" := [path1]]} {["cpu,host=a" := true]}.


End Demo.

(** ** Specification-side notions *)

Section Notions.

Context {C : Collaborators}.

(** The series key the rewrite derives from a block. *)
Definition serieKeyOf (cmd : Command) (b : Block) : string :=
  (formatSerieKey cmd (SeriesAndFieldFromCompositeKey b.(blk_key)).1).1.

(** The filter set: the keys of [cmd.series]. *)
Definition FilterSet (cmd : Command) : gset string := dom cmd.(series).

(** The blocks whose series key is not in the filter set, in order. *)
Definition keptBlocks (cmd : Command) (blocks : list Block) : list Block :=
  filter (λ b, serieKeyOf cmd b ∉ FilterSet cmd) blocks.

(** The blocks whose series key is in the filter set, in order. *)
Definition droppedBlocks (cmd : Command) (blocks : list Block) : list Block :=
  filter (λ b, serieKeyOf cmd b ∈ FilterSet cmd) blocks.

(** The temporary paths of a rewrite. *)
Definition outputPathOf (path : string) : string := path +:+ ".rewriting.tmp".
Definition idxPathOf (path : string) : string := outputPathOf path +:+ ".idx.tmp".

(** The calls a complete rewrite of [path] makes when the file holds
    [blocks], in the order it makes them up to the interleaving of reads and
    writes. *)
Definition rewriteSteps (cmd : Command) (path : string) (blocks : list Block) : list IOOp :=
  [OpOpen path; OpNewTSMReader path;
   OpRemoveAll (outputPathOf path); OpRemoveAll (idxPathOf path);
   OpCreate (outputPathOf path); OpNewTSMWriter (outputPathOf path)]
  ++ map (OpRead path) (seq 0 (length blocks))
  ++ map (OpWriteBlock (outputPathOf path)) (seq 0 (length (keptBlocks cmd blocks)))
  ++ [OpWriteIndex (outputPathOf path); OpClose (outputPathOf path);
      OpRename (outputPathOf path) path].

(** A rewrite that cannot reach its rename: the file is missing or is not a
    finalized segment, or one of the calls before the rename fails. *)
Definition failsBeforeRename (fault : IOOp → bool) (cmd : Command) (path : string)
    (w : World) : Prop :=
  match files w !! path with
  | Some (Segment blocks) =>
      ∃ op, op ∈ rewriteSteps cmd path blocks
            ∧ op ≠ OpRename (outputPathOf path) path ∧ fault op = true
  | _ => True
  end.

(** A path with the extension of segment files. *)
Definition isSegmentPath (path : string) : Prop :=
  filepath_Ext path = "." +:+ TSMFileExtension.

(** The first two components of the path relative to the data directory,
    when there are that many. *)
Definition components (cmd : Command) (path : string) (d0 d1 : string) : Prop :=
  ∃ relPath rest,
    filepath_Rel cmd.(dataDir) path = inr relPath ∧
    strings_Split relPath PathSeparator = d0 :: d1 :: rest.

(** The segment path belongs under [key] and passes both filters. *)
Definition placed (cmd : Command) (path key : string) : Prop :=
  ∃ d0 d1,
    components cmd path d0 d1 ∧
    key = filepath_Join d0 d1 ∧
    (cmd.(database) = "" ∨ d0 = cmd.(database)) ∧
    (cmd.(retentionPolicy) = "" ∨ d1 = cmd.(retentionPolicy)).

(** The relative path of a segment path has fewer than two components. *)
Definition tooShallow (cmd : Command) (path : string) : Prop :=
  ∃ relPath,
    filepath_Rel cmd.(dataDir) path = inr relPath ∧
    (length (strings_Split relPath PathSeparator) < 2)%nat.

(** Locating the segment files fails: the walk reports an error on some
    path, or some segment path cannot be made relative to the data
    directory or is too shallow. *)
Definition locateFails (cmd : Command) (w : World) : Prop :=
  ∃ v, v ∈ filepath_Walk w.(files) cmd.(dataDir) ∧
       (is_Some v.(wv_err) ∨
        (isSegmentPath v.(wv_path) ∧
         ((∃ e, filepath_Rel cmd.(dataDir) v.(wv_path) = inl e)
          ∨ tooShallow cmd v.(wv_path)))).

(** Loading the series file fails: it cannot be opened, or one of the reads
    of the scanner fails. *)
Definition loadFails (fault : IOOp → bool) (cmd : Command) (w : World) : Prop :=
  w.(files) !! cmd.(seriesFile) = None ∨
  fault (OpOpen cmd.(seriesFile)) = true ∨
  ∃ i, (i ≤ length (scanLines (from_option file_bytes "" (w.(files) !! cmd.(seriesFile)))))%nat
       ∧ fault (OpScan cmd.(seriesFile) i) = true.

(** [a] comes before [b] in [l]. *)
Definition before {A} (a b : A) (l : list A) : Prop :=
  ∃ l1 l2 l3, l = l1 ++ a :: l2 ++ b :: l3.

(** The files announced on the standard output, in order. *)
Fixpoint processedFiles (out : list Output) : list string :=
  match out with
  | [] => []
  | OutProcessingFile file :: out' => file :: processedFiles out'
  | _ :: out' => processedFiles out'
  end.


(** The text of one tag, and the texts of the tags separated by commas. *)
Definition tagString (t : Tag) : string := t.(Key) +:+ "=" +:+ t.(Value).

Fixpoint joinComma (l : list string) : string :=
  match l with
  | [] => ""
  | [x] => x
  | x :: xs => x +:+ "," +:+ joinComma xs
  end.

(** The line logged for a dropped block. *)
Definition deletingLine (b : Block) : LogLine :=
  LogDeletingBlock b.(blk_key) b.(blk_minTime) b.(blk_maxTime) (String.length b.(blk_block)).

(** The unit key under which the locator lists a path, if it lists it. *)
Definition unitKey (cmd : Command) (path : string) : option string :=
  if decide (isSegmentPath path) then
    match filepath_Rel cmd.(dataDir) path with
    | inr relPath =>
        match strings_Split relPath PathSeparator with
        | d0 :: d1 :: _ =>
            if decide ((d0 = cmd.(database) ∨ cmd.(database) = "")
                       ∧ (d1 = cmd.(retentionPolicy) ∨ cmd.(retentionPolicy) = ""))
            then Some (filepath_Join d0 d1) else None
        | _ => None
        end
    | inl _ => None
    end
  else None.

(** The visit makes the callback of the walk return the error [e]. *)
Definition visitFails (cmd : Command) (v : WalkVisit) (e : error) : Prop :=
  wv_err v = Some e ∨
  (wv_err v = None ∧ isSegmentPath v.(wv_path) ∧
   (filepath_Rel cmd.(dataDir) v.(wv_path) = inl e ∨
    (tooShallow cmd v.(wv_path) ∧ e = StructuralError v.(wv_path)))).

(** The rewrite of [g] does not reach [f] with its temporary paths. *)
Definition apart (g f : string) : Prop :=
  under (outputPathOf g) f = false ∧ under (idxPathOf g) f = false.

(** All the files of all the units of the command. *)
Definition unitFiles (cmd : Command) : list string :=
  concat (map_to_list cmd.(tsmFiles)).*2.






(** The files of the units under [keys], unit by unit, each unit in the
    order in which [deleteFromTSMFiles] takes its files. *)
Definition filesInOrder (cmd : Command) (keys : list string) : list string :=
  concat (map (λ key, sort_Strings (default [] (cmd.(tsmFiles) !! key))) keys).

(** What a segment file holds once the files of [D] have been rewritten. *)
Definition contentAfter (cmd : Command) (orig : string → list Block) (D : gset string)
    (f : string) : File :=
  Segment (if decide (f ∈ D) then keptBlocks cmd (orig f) else orig f).

End Notions.

(** * Properties *)

Section Properties.

Context {C : Collaborators}.
Variable fault : IOOp → bool.


Lemma formatSerieKey_eta cmd seriesBytes :
  formatSerieKey cmd seriesBytes = ((formatSerieKey cmd seriesBytes).1, None).
Proof. unfold formatSerieKey. by destruct (ParseKey seriesBytes). Qed.

Lemma keptBlocks_cons cmd b blocks :
  keptBlocks cmd (b :: blocks) =
  if decide (serieKeyOf cmd b ∉ FilterSet cmd) then b :: keptBlocks cmd blocks
  else keptBlocks cmd blocks.
Proof. unfold keptBlocks. by rewrite filter_cons. Qed.

Lemma droppedBlocks_cons cmd b blocks :
  droppedBlocks cmd (b :: blocks) =
  if decide (serieKeyOf cmd b ∈ FilterSet cmd) then b :: droppedBlocks cmd blocks
  else droppedBlocks cmd blocks.
Proof. unfold droppedBlocks. by rewrite filter_cons. Qed.

Lemma lookup_FilterSet cmd k :
  k ∈ FilterSet cmd ↔ is_Some (cmd.(series) !! k).
Proof. unfold FilterSet. apply elem_of_dom. Qed.

(** One turn of the loop of the rewrite. *)
Lemma rewriteBlocks_cons cmd r i b blocks tw d w :
  rewriteBlocks fault cmd r i (b :: blocks) tw d w =
  if fault (OpRead r.(r_path) i) then (inl (IOError (OpRead r.(r_path) i)), w)
  else if decide (serieKeyOf cmd b ∈ FilterSet cmd)
  then rewriteBlocks fault cmd r (S i) blocks tw (d + 1)
         (log_append (LogDeletingBlock b.(blk_key) b.(blk_minTime) b.(blk_maxTime)
                                       (String.length b.(blk_block))) w)
  else if fault (OpWriteBlock tw.(w_path) (length tw.(w_written)))
  then (inl (IOError (OpWriteBlock tw.(w_path) (length tw.(w_written)))), w)
  else rewriteBlocks fault cmd r (S i) blocks
         (mkWriter tw.(w_path) (tw.(w_written) ++ [b])) d w.
Proof.
  simpl. unfold bind at 1, itr_Read, bind at 1, attempt.
  destruct (fault (OpRead (r_path r) i)); [done|]. simpl.
  rewrite formatSerieKey_eta. fold (serieKeyOf cmd b).
  destruct (series cmd !! serieKeyOf cmd b) as [v|] eqn:Hlook.
  - rewrite decide_True by (apply lookup_FilterSet; eauto). done.
  - rewrite decide_False by (rewrite lookup_FilterSet, Hlook; by intros [? ?]).
    unfold bind at 1, WriteBlock, bind at 1, attempt.
    destruct (fault (OpWriteBlock (w_path tw) (length (w_written tw)))); [done|].
    simpl. by destruct b.
Qed.

(** The loop of the rewrite: it leaves files and standard output alone; it
    ends without error exactly when no read and no write it makes fails, and
    then the writer holds the kept blocks in order and the count is the
    number of dropped blocks. *)
Lemma rewriteBlocks_spec cmd r blocks : ∀ i tw d w,
  let res := rewriteBlocks fault cmd r i blocks tw d w in
  files res.2 = files w ∧ stdout res.2 = stdout w ∧ log_discard res.2 = log_discard w ∧
  match res.1 with
  | inr (tw', d') =>
      tw' = mkWriter tw.(w_path) (tw.(w_written) ++ keptBlocks cmd blocks) ∧
      d' = d + length (droppedBlocks cmd blocks) ∧
      (∀ j, j < length blocks → fault (OpRead r.(r_path) (i + j)) = false) ∧
      (∀ j, j < length (keptBlocks cmd blocks) →
            fault (OpWriteBlock tw.(w_path) (length tw.(w_written) + j)) = false)
  | inl e =>
      ∃ op, e = IOError op ∧ fault op = true ∧
        ((∃ j, j < length blocks ∧ op = OpRead r.(r_path) (i + j)) ∨
         (∃ j, j < length (keptBlocks cmd blocks) ∧
               op = OpWriteBlock tw.(w_path) (length tw.(w_written) + j)))
  end.
Proof.
  induction blocks as [|b blocks IH]; intros i tw d w; cbv zeta.
  - unfold keptBlocks, droppedBlocks. simpl.
    repeat split; try done; try (intros; lia).
    destruct tw; simpl. by rewrite app_nil_r.
  - rewrite rewriteBlocks_cons, keptBlocks_cons, droppedBlocks_cons.
    destruct (fault (OpRead (r_path r) i)) eqn:Hread.
    { simpl. do 3 (split; [done|]). exists (OpRead (r_path r) i). repeat split; try done.
      left. exists 0. split; [simpl; lia | by rewrite Nat.add_0_r]. }
    destruct (decide (serieKeyOf cmd b ∈ FilterSet cmd)) as [Hin|Hin].
    + rewrite decide_False by (intros Hn; by apply Hn).
      set (w' := log_append _ w).
      assert (Hw' : files w' = files w ∧ stdout w' = stdout w
                    ∧ log_discard w' = log_discard w)
        by (subst w'; unfold log_append; by destruct (log_discard w) eqn:E).
      destruct Hw' as (Hf' & Hs' & Hl').
      specialize (IH (S i) tw (d + 1) w').
      destruct (rewriteBlocks fault cmd r (S i) blocks tw (d + 1) w') as [res w''].
      cbn [fst snd] in *.
      destruct IH as (Hf & Hs & Hl & IH).
      do 3 (split; [congruence|]).
      destruct res as [e|[tw' d']].
      * destruct IH as (op & -> & Hop & [(j & Hj & ->)|(j & Hj & ->)]).
        -- exists (OpRead (r_path r) (S i + j)). repeat split; try done.
           left. exists (S j). split; [simpl; lia | f_equal; lia].
        -- eexists. repeat split; try done. right. eauto.
      * destruct IH as (-> & -> & Hr & Hw). repeat split; try done.
        -- simpl. lia.
        -- intros [|j] Hj; [by rewrite Nat.add_0_r|].
           replace (i + S j) with (S i + j) by lia. apply Hr. simpl in Hj. lia.
    + rewrite decide_True by done.
      destruct (fault (OpWriteBlock (w_path tw) (length (w_written tw)))) eqn:Hwr.
      { simpl. do 3 (split; [done|]). eexists. repeat split; try done.
        right. exists 0. split; [simpl; lia | by rewrite Nat.add_0_r]. }
      specialize (IH (S i) (mkWriter (w_path tw) (w_written tw ++ [b])) d w).
      destruct (rewriteBlocks fault cmd r (S i) blocks _ d w) as [res w''].
      cbn [fst snd] in *.
      destruct IH as (Hf & Hs & Hl & IH).
      do 3 (split; [done|]).
      destruct res as [e|[tw' d']]; simpl in *.
      * destruct IH as (op & -> & Hop & [(j & Hj & ->)|(j & Hj & ->)]).
        -- exists (OpRead (r_path r) (S i + j)). repeat split; try done.
           left. exists (S j). split; [lia | f_equal; lia].
        -- eexists. repeat split; try done. right. exists (S j). split; [lia|].
           f_equal. rewrite length_app. simpl. lia.
      * destruct IH as (-> & -> & Hr & Hw). repeat split; try done.
        -- by rewrite <- app_assoc.
        -- intros [|j] Hj; [by rewrite Nat.add_0_r|].
           replace (i + S j) with (S i + j) by lia. apply Hr. lia.
        -- intros [|j] Hj; [by rewrite Nat.add_0_r|].
           specialize (Hw j). rewrite length_app in Hw. simpl in Hw.
           replace (length (w_written tw) + S j) with (length (w_written tw) + 1 + j) by lia.
           apply Hw. lia.
Qed.

(** *** Paths of the temporary files *)

Lemma string_length_app (s t : string) :
  String.length (s +:+ t) = (String.length s + String.length t)%nat.
Proof. induction s as [|c s IH]; simpl; [done|]. by rewrite IH. Qed.

Lemma prefix_length (s t : string) :
  String.prefix s t = true → (String.length s ≤ String.length t)%nat.
Proof.
  revert t. induction s as [|c s IH]; intros [|c' t] H; simpl in *; try lia; try done.
  destruct (ascii_dec c c'); [|done]. apply IH in H. lia.
Qed.

Lemma under_longer (root path : string) :
  (String.length path < String.length root)%nat → under root path = false.
Proof.
  intros Hlen. unfold under. apply orb_false_intro.
  - apply bool_decide_eq_false. intros ->. lia.
  - destruct (String.prefix (root +:+ "/") path) eqn:Hp; [|done].
    apply prefix_length in Hp. rewrite string_length_app in Hp. lia.
Qed.

Lemma outputPathOf_ne path : outputPathOf path ≠ path.
Proof.
  intros H. apply (f_equal String.length) in H.
  unfold outputPathOf in H. rewrite string_length_app in H. simpl in H. lia.
Qed.

Lemma under_output_path path : under (outputPathOf path) path = false.
Proof.
  apply under_longer. unfold outputPathOf. rewrite string_length_app. simpl. lia.
Qed.

Lemma under_idx_path path : under (idxPathOf path) path = false.
Proof.
  apply under_longer. unfold idxPathOf, outputPathOf.
  rewrite !string_length_app. simpl. lia.
Qed.

(** [os.RemoveAll] keeps every file that is not at or below its path. *)
Lemma lookup_RemoveAll (root p : string) (fs : gmap string File) :
  under root p = false →
  filter (λ kv : string * File, under root kv.1 = false) fs !! p = fs !! p.
Proof.
  intros Hu. rewrite map_lookup_filter.
  destruct (fs !! p) as [f|]; simpl; [|done].
  by rewrite option_guard_True.
Qed.

Lemma rewriteSteps_elem cmd path blocks op :
  op ∈ rewriteSteps cmd path blocks ↔
  op = OpOpen path ∨ op = OpNewTSMReader path ∨
  op = OpRemoveAll (outputPathOf path) ∨ op = OpRemoveAll (idxPathOf path) ∨
  op = OpCreate (outputPathOf path) ∨ op = OpNewTSMWriter (outputPathOf path) ∨
  (∃ j, j < length blocks ∧ op = OpRead path j) ∨
  (∃ j, j < length (keptBlocks cmd blocks) ∧ op = OpWriteBlock (outputPathOf path) j) ∨
  op = OpWriteIndex (outputPathOf path) ∨ op = OpClose (outputPathOf path) ∨
  op = OpRename (outputPathOf path) path.
Proof.
  unfold rewriteSteps.
  rewrite !elem_of_app, !elem_of_cons, !list_elem_of_fmap, elem_of_nil.
  setoid_rewrite elem_of_seq.
  split.
  - intros [H|[H|H]].
    + repeat (destruct H as [H|H]); subst; auto 20. done.
    + destruct H as (j & -> & Hj). do 6 right. left. exists j. split; [lia|done].
    + destruct H as [H|H].
      * destruct H as (j & -> & Hj). do 7 right. left. exists j. split; [lia|done].
      * repeat (destruct H as [H|H]); subst; auto 20. done.
  - intros H. repeat (destruct H as [H|H]); subst; auto 20.
    + destruct H as (j & Hj & ->). right. left. exists j. split; [done|lia].
    + destruct H as (j & Hj & ->). right. right. left. exists j. split; [done|lia].
Qed.

Lemma processTSMFile_spec cmd path w :
  let res := processTSMFile fault cmd path w in
  log_discard res.2 = log_discard w ∧
  (stdout res.2 = stdout w ∨ ∃ n, stdout res.2 = stdout w ++ [OutDropped n]) ∧
  match res.1 with
  | inr _ =>
      ∃ blocks, files w !! path = Some (Segment blocks) ∧
        (∀ op, op ∈ rewriteSteps cmd path blocks → fault op = false) ∧
        files res.2 !! path = Some (Segment (keptBlocks cmd blocks)) ∧
        files res.2 !! outputPathOf path = None ∧
        stdout res.2 = stdout w ++ [OutDropped (length (droppedBlocks cmd blocks))]
  | inl e =>
      files res.2 !! path = files w !! path ∧
      ((∃ op, e = IOError op) ∨ (∃ cause, e = ReadError path cause)) ∧
      ((∀ blocks, files w !! path ≠ Some (Segment blocks)) ∨
       (∃ blocks op, files w !! path = Some (Segment blocks) ∧
                     op ∈ rewriteSteps cmd path blocks ∧ fault op = true))
  end.
Proof.
  cbv zeta. destruct (processTSMFile fault cmd path w) as [res w'] eqn:Hrun.
  cbn [fst snd]. unfold processTSMFile in Hrun.
  fold (outputPathOf path) in Hrun. fold (idxPathOf path) in Hrun.
  destruct (files w !! path) as [[blocks|data]|] eqn:Hfile.
  2:{ unfold bind at 1, os_Open in Hrun. rewrite Hfile in Hrun.
      destruct (fault (OpOpen path)).
      { injection Hrun as <- <-. repeat split; eauto. }
      unfold bind at 1, NewTSMReader in Hrun. rewrite Hfile in Hrun.
      destruct (fault (OpNewTSMReader path));
        injection Hrun as <- <-; repeat split; eauto. }
  2:{ unfold bind at 1, os_Open in Hrun. rewrite Hfile in Hrun.
      destruct (fault (OpOpen path)); injection Hrun as <- <-; repeat split; eauto. }
  assert (Hstep : ∀ op, fault op = true →
            op = OpOpen path ∨ op = OpNewTSMReader path ∨
            op = OpRemoveAll (outputPathOf path) ∨ op = OpRemoveAll (idxPathOf path) ∨
            op = OpCreate (outputPathOf path) ∨ op = OpNewTSMWriter (outputPathOf path) ∨
            (∃ j, j < length blocks ∧ op = OpRead path j) ∨
            (∃ j, j < length (keptBlocks cmd blocks)
                  ∧ op = OpWriteBlock (outputPathOf path) j) ∨
            op = OpWriteIndex (outputPathOf path) ∨ op = OpClose (outputPathOf path) ∨
            op = OpRename (outputPathOf path) path →
            (∀ bs, Some (Segment blocks) ≠ Some (Segment bs)) ∨
            (∃ bs op, Some (Segment blocks) = Some (Segment bs) ∧
                      op ∈ rewriteSteps cmd path bs ∧ fault op = true)).
  { intros op Hop Hin. right. exists blocks, op. split; [done|]. split; [|done].
    by apply rewriteSteps_elem. }
  unfold bind at 1, os_Open in Hrun. rewrite Hfile in Hrun.
  destruct (fault (OpOpen path)) eqn:F1.
  { injection Hrun as <- <-. repeat split; eauto 20. }
  unfold bind at 1, NewTSMReader in Hrun. rewrite Hfile in Hrun.
  destruct (fault (OpNewTSMReader path)) eqn:F2.
  { injection Hrun as <- <-. repeat split; eauto 20. }
  unfold bind at 1, os_RemoveAll in Hrun.
  destruct (fault (OpRemoveAll (outputPathOf path))) eqn:F3.
  { injection Hrun as <- <-. repeat split; eauto 20. }
  unfold bind at 1 in Hrun.
  destruct (fault (OpRemoveAll (idxPathOf path))) eqn:F4.
  { injection Hrun as <- <-. simpl. rewrite lookup_RemoveAll by apply under_output_path.
    repeat split; eauto 20. }
  simpl in Hrun.
  set (fs2 := filter (λ kv : string * File, under (idxPathOf path) kv.1 = false) _) in Hrun.
  assert (Hfs2 : fs2 !! path = Some (Segment blocks)).
  { subst fs2. rewrite !lookup_RemoveAll; auto using under_output_path, under_idx_path. }
  unfold bind at 1, log_Printf in Hrun.
  set (w3 := log_append _ _) in Hrun.
  assert (Hw3 : files w3 = fs2 ∧ stdout w3 = stdout w ∧ log_discard w3 = log_discard w).
  { subst w3. unfold log_append. simpl. by destruct (log_discard w) eqn:E. }
  destruct Hw3 as (Hf3 & Hs3 & Hl3).
  unfold bind at 1, os_Create in Hrun.
  destruct (fault (OpCreate (outputPathOf path))) eqn:F5.
  { injection Hrun as <- <-. rewrite Hf3, Hl3, Hs3. repeat split; eauto 20. }
  unfold bind at 1, NewTSMWriter, bind at 1, attempt in Hrun.
  destruct (fault (OpNewTSMWriter (outputPathOf path))) eqn:F6.
  { injection Hrun as <- <-. simpl. rewrite Hf3, Hl3, Hs3.
    rewrite lookup_insert_ne by apply outputPathOf_ne. repeat split; eauto 20. }
  unfold bind at 1, ret in Hrun.
  match type of Hrun with context [rewriteBlocks _ _ ?r 0 ?bs ?tw 0 ?w4] =>
    pose proof (rewriteBlocks_spec cmd r bs 0 tw 0 w4) as Hloop;
    destruct (rewriteBlocks fault cmd r 0 bs tw 0 w4) as [[e|[tw' d']] w5]
  end; cbn [fst snd] in Hloop; simpl in Hloop;
  destruct Hloop as (Hf5 & Hs5 & Hl5 & Hloop).
  { injection Hrun as <- <-. rewrite Hf5, Hl5, Hs5, Hf3, Hl3, Hs3.
    rewrite lookup_insert_ne by apply outputPathOf_ne.
    destruct Hloop as (op & -> & Hop & Hwhich).
    repeat split; eauto. apply (Hstep op Hop). tauto. }
  destruct Hloop as (-> & -> & Hreads & Hwrites).
  cbn [fst snd] in Hrun.
  unfold bind at 1, fmt_Print in Hrun.
  unfold bind at 1, WriteIndex, attempt in Hrun. cbn [w_path w_written] in Hrun.
  destruct (fault (OpWriteIndex (outputPathOf path))) eqn:F7.
  { injection Hrun as <- <-. simpl. rewrite Hf5, Hl5, Hs5, Hf3, Hl3, Hs3.
    rewrite lookup_insert_ne by apply outputPathOf_ne. repeat split; eauto 20. }
  unfold bind at 1, Close, bind at 1, attempt in Hrun. cbn [w_path w_written] in Hrun.
  destruct (fault (OpClose (outputPathOf path))) eqn:F8.
  { injection Hrun as <- <-. simpl. rewrite Hf5, Hl5, Hs5, Hf3, Hl3, Hs3.
    rewrite lookup_insert_ne by apply outputPathOf_ne. repeat split; eauto 20. }
  unfold os_Rename in Hrun. simpl in Hrun.
  rewrite lookup_insert_eq in Hrun.
  destruct (fault (OpRename (outputPathOf path) path)) eqn:F9.
  { injection Hrun as <- <-. simpl. rewrite Hf5, Hl5, Hs5, Hf3, Hl3, Hs3.
    rewrite !lookup_insert_ne by apply outputPathOf_ne. repeat split; eauto 20. }
  injection Hrun as <- <-. simpl.
  split; [congruence|].
  split; [right; rewrite Hs5, Hs3; eauto|].
  exists blocks. split; [done|]. split.
  { intros op Hin. apply rewriteSteps_elem in Hin.
    repeat (destruct Hin as [Hin|Hin]); subst; try done.
    - destruct Hin as (j & Hj & ->). by apply Hreads.
    - destruct Hin as (j & Hj & ->). by apply Hwrites. }
  split; [by rewrite lookup_insert_eq|].
  split.
  { rewrite lookup_insert_ne by (intros H; symmetry in H; by apply outputPathOf_ne in H).
    by rewrite lookup_delete_eq. }
  by rewrite Hs5, Hs3.
Qed.



(** A rewrite none of whose calls fails. *)
Lemma processTSMFile_ok cmd path w blocks :
  files w !! path = Some (Segment blocks) →
  (∀ op, op ∈ rewriteSteps cmd path blocks → fault op = false) →
  let res := processTSMFile fault cmd path w in
  returned res = None ∧
  files res.2 !! path = Some (Segment (keptBlocks cmd blocks)) ∧
  files res.2 !! outputPathOf path = None ∧
  stdout res.2 = stdout w ++ [OutDropped (length (droppedBlocks cmd blocks))].
Proof.
  intros Hfile Hok res.
  pose proof (processTSMFile_spec cmd path w) as Hspec.
  fold res in Hspec. cbv zeta in Hspec. destruct Hspec as (_ & _ & Hspec).
  unfold returned. destruct res.1 as [e|[]] eqn:Hres.
  - exfalso. destruct Hspec as (_ & _ & [Hno|(bs & op & Hbs & Hin & Hop)]).
    + by apply (Hno blocks).
    + rewrite Hfile in Hbs. injection Hbs as <-. apply Hok in Hin. congruence.
  - destruct Hspec as (bs & Hbs & _ & Hpath & Htmp & Hout).
    rewrite Hfile in Hbs. by injection Hbs as <-.
Qed.


(** C2. A rewrite that fails leaves the original alone: when the input
    cannot be opened or read, or the temporary file cannot be created, or a
    block cannot be read or written, or [WriteIndex] or [Close] fails, and
    more generally whenever [processTSMFile] returns an error at all, an
    error is returned and the file at [path] is what it was: the rename is
    reached only after every earlier call, [WriteIndex] and [Close] among
    them, has succeeded. *)
Theorem processTSMFile_error_keeps_original cmd path w :
  let res := processTSMFile fault cmd path w in
  failsBeforeRename fault cmd path w ∨ returned res ≠ None →
  (∃ e, returned res = Some e) ∧ files res.2 !! path = files w !! path.
Proof.
  intros res Hfail.
  pose proof (processTSMFile_spec cmd path w) as Hspec.
  fold res in Hspec. cbv zeta in Hspec. destruct Hspec as (_ & _ & Hspec).
  unfold returned in *. destruct res.1 as [e|[]] eqn:Hres.
  - split; [eauto|]. by destruct Hspec as (Hsame & _).
  - exfalso. destruct Hfail as [Hfail|Hfail]; [|done].
    destruct Hspec as (bs & Hbs & Hok & _).
    unfold failsBeforeRename in Hfail. rewrite Hbs in Hfail.
    destruct Hfail as (op & Hin & _ & Hop). apply Hok in Hin. congruence.
Qed.

Lemma keptBlocks_idemp cmd blocks :
  keptBlocks cmd (keptBlocks cmd blocks) = keptBlocks cmd blocks.
Proof.
  induction blocks as [|b blocks IH]; [done|].
  rewrite keptBlocks_cons. case_decide; [|done].
  rewrite keptBlocks_cons, decide_True by done. by rewrite IH.
Qed.




(** *** Series keys *)

Lemma string_app_ne (s t : string) : t ≠ "" → s +:+ t ≠ s.
Proof.
  intros Ht H. apply (f_equal String.length) in H.
  rewrite string_length_app in H. destruct t; [done|]. simpl in H. lia.
Qed.

(** C10. A block whose composite key parses to a measurement with no tags
    gets the series key made of the measurement name and a trailing comma;
    this key differs from the bare measurement name, so a filter set that
    holds the measurement name alone does not contain it, and the rewrite of
    a segment with such a filter set keeps the block. *)
Theorem formatSerieKey_tagless_trailing_comma cmd b measurement :
  ParseKey (SeriesAndFieldFromCompositeKey b.(blk_key)).1 = (measurement, []) →
  formatSerieKey cmd (SeriesAndFieldFromCompositeKey b.(blk_key)).1
    = (measurement +:+ ",", None) ∧
  serieKeyOf cmd b = measurement +:+ "," ∧
  serieKeyOf cmd b ≠ measurement ∧
  (FilterSet cmd = {[measurement]} →
   (serieKeyOf cmd b ∉ FilterSet cmd) ∧
   (∀ path w blocks,
      files w !! path = Some (Segment blocks) →
      b ∈ blocks →
      (∀ op, op ∈ rewriteSteps cmd path blocks → fault op = false) →
      ∃ kept, files (processTSMFile fault cmd path w).2 !! path = Some (Segment kept)
              ∧ b ∈ kept)).
Proof.
  intros Hparse.
  assert (Hfmt : formatSerieKey cmd (SeriesAndFieldFromCompositeKey b.(blk_key)).1
                 = (measurement +:+ ",", None))
    by (unfold formatSerieKey; by rewrite Hparse).
  assert (Hkey : serieKeyOf cmd b = measurement +:+ ",")
    by (unfold serieKeyOf; by rewrite Hfmt).
  assert (Hne : serieKeyOf cmd b ≠ measurement)
    by (rewrite Hkey; by apply string_app_ne).
  repeat split; try done.
  - rewrite H. by intros ?%elem_of_singleton.
  - intros path w blocks Hfile Hb Hok.
    destruct (processTSMFile_ok cmd path w blocks Hfile Hok) as (_ & Hf & _).
    eexists. split; [exact Hf|].
    unfold keptBlocks. apply list_elem_of_filter. split; [|done].
    rewrite H. by intros ?%elem_of_singleton.
Qed.


(** *** Order of the files of a unit *)

Lemma processedFiles_app out1 out2 :
  processedFiles (out1 ++ out2) = processedFiles out1 ++ processedFiles out2.
Proof. induction out1 as [|[] out1 IH]; simpl; by rewrite ?IH. Qed.

Lemma processTSMFile_processedFiles cmd path w :
  processedFiles (stdout (processTSMFile fault cmd path w).2) = processedFiles (stdout w).
Proof.
  pose proof (processTSMFile_spec cmd path w) as Hspec. cbv zeta in Hspec.
  destruct Hspec as (_ & [->|[n ->]] & _); [done|].
  rewrite processedFiles_app. simpl. by rewrite app_nil_r.
Qed.

(** The loop over the files announces them in the order of the list and
    never returns an error. *)
Lemma processFiles_spec cmd fs : ∀ w,
  (processFiles fault cmd fs w).1 = inr () ∧
  processedFiles (stdout (processFiles fault cmd fs w).2) = processedFiles (stdout w) ++ fs.
Proof.
  induction fs as [|file fs IH]; intros w; simpl.
  - by rewrite app_nil_r.
  - unfold bind at 1 3, fmt_Print. unfold bind at 1 2, discard_error.
    match goal with |- context [processFiles fault cmd fs ?w'] =>
      destruct (IH w') as [Hr Hp]; rewrite Hr, Hp end.
    split; [done|]. cbn [snd].
    rewrite processTSMFile_processedFiles. cbn [stdout].
    rewrite processedFiles_app. simpl. by rewrite <- app_assoc.
Qed.



(** *** The segment locator *)

Lemma walkFn_spec cmd path err r cmd' :
  walkFn cmd path err = (r, cmd') →
  (∃ m, cmd' = set_tsmFiles cmd m) ∧
  match r with
  | Some e =>
      err = Some e ∨
      (err = None ∧ isSegmentPath path ∧
       (filepath_Rel cmd.(dataDir) path = inl e ∨
        (tooShallow cmd path ∧ e = StructuralError path)))
  | None =>
      err = None ∧
      (isSegmentPath path → ∃ d0 d1, components cmd path d0 d1) ∧
      ∀ key p, p ∈ default [] (tsmFiles cmd' !! key) ↔
               p ∈ default [] (tsmFiles cmd !! key)
               ∨ (p = path ∧ isSegmentPath path ∧ placed cmd path key)
  end.
Proof.
  assert (Hid : ∃ m, cmd = set_tsmFiles cmd m) by (exists (tsmFiles cmd); by destruct cmd).
  unfold walkFn. destruct err as [e|].
  { intros [= <- <-]. split; [done|]. by left. }
  destruct (bool_decide (filepath_Ext path = "." +:+ TSMFileExtension)) eqn:Hext; simpl.
  2:{ apply bool_decide_eq_false in Hext. intros [= <- <-]. split; [done|].
      split; [done|]. split; [done|]. intros key p. split; [by left|].
      by intros [?|(_ & ? & _)]. }
  apply bool_decide_eq_true in Hext.
  destruct (filepath_Rel (dataDir cmd) path) as [e|relPath] eqn:Hrel.
  { intros [= <- <-]. split; [done|]. right. by repeat split; try left. }
  destruct (strings_Split relPath PathSeparator) as [|d0 [|d1 rest]] eqn:Hsplit; simpl.
  1,2: intros [= <- <-]; split; [done|]; right; repeat split; try done;
       right; split; [|done]; exists relPath; rewrite Hsplit; simpl; split; [done|lia].
  assert (Hcomp : components cmd path d0 d1) by (exists relPath, rest; done).
  assert (Huniq : ∀ e0 e1, components cmd path e0 e1 → e0 = d0 ∧ e1 = d1).
  { intros e0 e1 (rel' & rest' & Hrel' & Hsplit'). rewrite Hrel in Hrel'.
    injection Hrel' as <-. rewrite Hsplit in Hsplit'. by injection Hsplit' as <- <- _. }
  destruct (bool_decide (d0 = database cmd) || bool_decide (database cmd = "")) eqn:Hdb.
  2:{ intros [= <- <-]. split; [done|]. split; [done|]. split; [eauto|].
      intros key p. split; [by left|]. intros [?|(_ & _ & e0 & e1 & Hc & _ & Hd & _)]; [done|].
      apply Huniq in Hc as [-> ->]. apply orb_false_elim in Hdb as [H0 H1].
      apply bool_decide_eq_false in H0, H1. by destruct Hd. }
  destruct (bool_decide (d1 = retentionPolicy cmd) || bool_decide (retentionPolicy cmd = ""))
    eqn:Hrp.
  2:{ intros [= <- <-]. split; [done|]. split; [done|]. split; [eauto|].
      intros key p. split; [by left|]. intros [?|(_ & _ & e0 & e1 & Hc & _ & _ & Hr)]; [done|].
      apply Huniq in Hc as [-> ->]. apply orb_false_elim in Hrp as [H0 H1].
      apply bool_decide_eq_false in H0, H1. by destruct Hr. }
  intros [= <- <-]. split; [eauto|]. split; [done|]. split; [eauto|].
  assert (Hplaced : placed cmd path (filepath_Join d0 d1)).
  { exists d0, d1. split; [done|]. split; [done|].
    apply orb_true_iff in Hdb, Hrp. rewrite !bool_decide_eq_true in Hdb, Hrp. tauto. }
  intros key p. simpl.
  destruct (decide (key = filepath_Join d0 d1)) as [->|Hkey].
  - rewrite lookup_insert_eq. simpl. rewrite elem_of_app, list_elem_of_singleton.
    split; [intros [?| ->]; [by left|by right] | intros [?|(-> & _)]; [by left|by right]].
  - rewrite lookup_insert_ne by done. split; [by left|].
    intros [?|(_ & _ & e0 & e1 & Hc & -> & _)]; [done|].
    apply Huniq in Hc as [-> ->]. done.
Qed.

(** A walk that ends without error met no failing visit and added each
    segment path under the key of its unit when the filters accept it. *)
Lemma walk_loop_spec visits : ∀ cmd r cmd',
  walk_loop visits cmd = (r, cmd') →
  (∃ m, cmd' = set_tsmFiles cmd m) ∧
  (r = None →
   (∀ v, v ∈ visits →
         wv_err v = None ∧
         (isSegmentPath v.(wv_path) → ∃ d0 d1, components cmd v.(wv_path) d0 d1)) ∧
   (∀ key p, p ∈ default [] (tsmFiles cmd' !! key) ↔
             p ∈ default [] (tsmFiles cmd !! key)
             ∨ (∃ v, v ∈ visits ∧ p = v.(wv_path) ∧ isSegmentPath p ∧ placed cmd p key))).
Proof.
  induction visits as [|v visits IH]; intros cmd r cmd'; simpl.
  - intros [= <- <-]. split; [exists (tsmFiles cmd); by destruct cmd|].
    intros _. split; [by intros v ?%elem_of_nil|].
    intros key p. split; [by left|]. by intros [?|(v & ?%elem_of_nil & _)].
  - destruct (walkFn cmd (wv_path v) (wv_err v)) as [[e|] cmd1] eqn:Hfn;
      apply walkFn_spec in Hfn as ([m1 ->] & Hfn).
    { intros [= <- <-]. split; [eauto|done]. }
    intros Hloop. apply IH in Hloop as ([m ->] & Hloop).
    split; [by exists m|]. intros ->. destruct (Hloop eq_refl) as [Hall Hmap].
    destruct Hfn as (Herr & Hcomp & Hmap1). split.
    + intros v' [->|Hv']%elem_of_cons; [done|]. by apply Hall.
    + intros key p. rewrite Hmap, Hmap1. split.
      * intros [[?|(-> & Hseg & Hpl)]|(v' & Hv' & -> & Hseg & Hpl)]; [by left|..].
        -- right. exists v. split; [by left|done].
        -- right. exists v'. split; [by right|done].
      * intros [?|(v' & [->|Hv']%elem_of_cons & -> & Hseg & Hpl)]; [by left; left|..].
        -- left. by right.
        -- right. by exists v'.
Qed.


Lemma components_not_shallow cmd path d0 d1 :
  components cmd path d0 d1 → ¬ tooShallow cmd path.
Proof.
  intros (rel & rest & Hrel & Hsplit) (rel' & Hrel' & Hlen).
  rewrite Hrel in Hrel'. injection Hrel' as <-.
  rewrite Hsplit in Hlen. simpl in Hlen. lia.
Qed.


(** *** The series filter loader *)

Lemma scan_loop_spec file lines : ∀ i cmd r cmd',
  scan_loop fault file i lines cmd = (r, cmd') →
  (∃ m, cmd' = set_series cmd m) ∧
  (r = None → ∀ j, (j ≤ length lines)%nat → fault (OpScan file (i + j)) = false).
Proof.
  assert (Hid : ∀ cmd, ∃ m, cmd = set_series cmd m)
    by (intros cmd; exists (series cmd); by destruct cmd).
  induction lines as [|text lines IH]; intros i cmd r cmd'; simpl.
  - destruct (fault (OpScan file i)) eqn:Hf; intros [= <- <-]; (split; [done|]); [done|].
    intros _ j Hj. assert (j = 0) as -> by lia. by rewrite Nat.add_0_r.
  - destruct (fault (OpScan file i)) eqn:Hf.
    { intros [= <- <-]. split; [done|]. done. }
    intros Hloop. apply IH in Hloop as ([m ->] & Hloop).
    split; [by exists m|]. intros Hr [|j] Hj; [by rewrite Nat.add_0_r|].
    replace (i + S j) with (S i + j) by lia. apply Hloop; [done|lia].
Qed.

Lemma parseSeriesFile_spec cmd w r cmd' :
  parseSeriesFile fault cmd w = (r, cmd') →
  (∃ m, cmd' = set_series cmd m) ∧ (r = None → ¬ loadFails fault cmd w).
Proof.
  assert (Hid : ∃ m, cmd = set_series cmd m) by (exists (series cmd); by destruct cmd).
  unfold parseSeriesFile, os_Open.
  destruct (fault (OpOpen (seriesFile cmd))) eqn:Hopen.
  { intros [= <- <-]. split; [done|]. done. }
  destruct (files w !! seriesFile cmd) as [f|] eqn:Hfile.
  2:{ intros [= <- <-]. split; [done|]. done. }
  rewrite Hfile. intros Hloop. apply scan_loop_spec in Hloop as (Hm & Hloop).
  split; [done|]. intros Hr [Hnone|[Hf|(i & Hi & Hf)]]; [congruence..|].
  rewrite Hfile in Hi. specialize (Hloop Hr i Hi). simpl in Hloop. congruence.
Qed.

Lemma walkTSMFiles_spec cmd w r cmd' :
  walkTSMFiles cmd w = (r, cmd') →
  (∃ m, cmd' = set_tsmFiles cmd m) ∧ (r = None → ¬ locateFails cmd w).
Proof.
  unfold walkTSMFiles. intros Hloop. apply walk_loop_spec in Hloop as (Hm & Hloop).
  split; [done|]. intros Hr (v & Hv & Hbad).
  destruct (Hloop Hr) as [Hall _]. destruct (Hall v Hv) as (Herr & Hcomp).
  destruct Hbad as [[e He]|(Hseg & Hbad)]; [congruence|].
  destruct (Hcomp Hseg) as (d0 & d1 & Hc).
  destruct Hbad as [[e He]|Hshallow].
  - destruct Hc as (rel & rest & Hrel & _). congruence.
  - by apply components_not_shallow in Hc.
Qed.

(** C3. A run whose series file cannot be loaded or whose segment files
    cannot be located returns an error and has touched no file: the files
    of the world after [Run] are the files before it. *)
Theorem Run_aborts_before_touching_files cmd args flags w :
  flag_Parse cmd args = inr flags →
  locateFails flags w ∨ loadFails fault flags w →
  let res := Run fault cmd args w in
  (∃ e, res.1.1 = Some e) ∧ files res.2 = files w.
Proof.
  intros Hparse Hfail res. unfold res, Run. rewrite Hparse.
  set (w0 := if negb (verbose flags) then _ else w).
  assert (Hw0 : files w0 = files w) by (subst w0; by destruct (verbose flags)).
  destruct (bool_decide (seriesFile flags = "")); [cbn [fst snd]; eauto|].
  destruct (walkTSMFiles flags w0) as [[e|] cmd1] eqn:Hwalk; [cbn [fst snd]; eauto|].
  apply walkTSMFiles_spec in Hwalk as ([m ->] & Hwalk).
  specialize (Hwalk eq_refl).
  destruct (parseSeriesFile fault (set_tsmFiles flags m) w0) as [[e|] cmd2] eqn:Hload;
    [cbn [fst snd]; eauto|].
  exfalso. apply parseSeriesFile_spec in Hload as (_ & Hload). specialize (Hload eq_refl).
  destruct Hfail as [Hfail|Hfail].
  - apply Hwalk. unfold locateFails in *. by rewrite Hw0.
  - apply Hload. unfold loadFails in *. simpl. by rewrite Hw0.
Qed.

(** *** The sanitize flag *)










(** The error of a rewrite is dropped by [deleteFromTSMFiles]. *)
Lemma deleteFromTSMFiles_returns_nil cmd fs w :
  returned (deleteFromTSMFiles fault cmd fs w) = None.
Proof.
  unfold deleteFromTSMFiles, bind, returned.
  destruct (processFiles_spec cmd (sort_Strings fs) w) as [Hr _].
  destruct (processFiles fault cmd (sort_Strings fs) w) as [r w']. simpl in *. by subst r.
Qed.

End Properties.

(** * Further properties of the command *)

Section Coverage.

Context {C : Collaborators}.
Variable fault : IOOp → bool.

(** *** The format of a series key *)

Lemma string_app_assoc (s t u : string) : (s +:+ t) +:+ u = s +:+ t +:+ u.
Proof.
  induction s as [|c s IH]; [done|].
  change (String c ((s +:+ t) +:+ u) = String c (s +:+ t +:+ u)). by rewrite IH.
Qed.

Lemma string_app_empty_r (s : string) : s +:+ "" = s.
Proof.
  induction s as [|c s IH]; [done|].
  change (String c (s +:+ "") = String c s). by rewrite IH.
Qed.

Lemma formatTags_join tags : ∀ idx n b,
  n = idx + length tags →
  formatTags idx n tags b = b +:+ joinComma (map tagString tags).
Proof.
  induction tags as [|tag tags IH]; intros idx n b Hn; simpl.
  - by rewrite string_app_empty_r.
  - destruct tags as [|tag' tags].
    + assert ((Z.of_nat idx <? Z.of_nat n - 1)%Z = false) as ->
        by (apply Z.ltb_ge; simpl in *; lia).
      reflexivity.
    + rewrite (IH (S idx) n) by (simpl in *; lia).
      assert ((Z.of_nat idx <? Z.of_nat n - 1)%Z = true) as ->
        by (apply Z.ltb_lt; simpl in *; lia).
      fold (tagString tag). cbn [map joinComma].
      by rewrite !string_app_assoc.
Qed.

(** X1. [formatSerieKey] never fails and writes the measurement, a comma and
    the tags as [key=value] separated by single commas, in the order of the
    tag list: no comma follows the last tag. *)
Theorem formatSerieKey_format cmd seriesBytes :
  formatSerieKey cmd seriesBytes =
  ((ParseKey seriesBytes).1 +:+ "," +:+ joinComma (map tagString (ParseKey seriesBytes).2),
   None).
Proof.
  unfold formatSerieKey. destruct (ParseKey seriesBytes) as [measurement tags]. simpl.
  f_equal. rewrite (formatTags_join tags 0 (length tags)) by done.
  rewrite !string_app_assoc. reflexivity.
Qed.

(** *** What a rewrite touches and what it logs *)

Lemma log_append_facts line w :
  files (log_append line w) = files w ∧ stdout (log_append line w) = stdout w ∧
  log_discard (log_append line w) = log_discard w ∧
  logged (log_append line w) = if log_discard w then logged w else logged w ++ [line].
Proof. unfold log_append. by destruct (log_discard w) eqn:E. Qed.

(** The loop logs one line per dropped block, in order, unless the logger
    discards. *)
Lemma rewriteBlocks_logged cmd r blocks : ∀ i tw d w,
  let res := rewriteBlocks fault cmd r i blocks tw d w in
  (log_discard w = true → logged res.2 = logged w) ∧
  (∀ x, res.1 = inr x →
     logged res.2 = if log_discard w then logged w
                    else logged w ++ map deletingLine (droppedBlocks cmd blocks)).
Proof.
  induction blocks as [|b blocks IH]; intros i tw d w; cbv zeta.
  - simpl. split; [done|]. intros _ _. destruct (log_discard w); [done|].
    by rewrite app_nil_r.
  - rewrite rewriteBlocks_cons, droppedBlocks_cons.
    destruct (fault (OpRead (r_path r) i)); [by split|].
    destruct (decide (serieKeyOf cmd b ∈ FilterSet cmd)) as [Hin|Hin].
    + fold (deletingLine b).
      destruct (log_append_facts (deletingLine b) w) as (_ & _ & Hd & Hl).
      destruct (IH (S i) tw (d + 1) (log_append (deletingLine b) w)) as [IH1 IH2].
      rewrite Hd, Hl in IH1, IH2. split.
      * intros Hdis. rewrite Hdis in IH1. by apply IH1.
      * intros x Hx. rewrite (IH2 x Hx). destruct (log_discard w); [done|].
        simpl. by rewrite <- app_assoc.
    + destruct (fault (OpWriteBlock (w_path tw) (length (w_written tw)))); [by split|].
      apply IH.
Qed.

(** A rewrite whose input cannot be opened or is not a TSM file. *)
Lemma processTSMFile_early cmd path w :
  (files w !! path = None ∨ fault (OpOpen path) = true →
   processTSMFile fault cmd path w = (inl (IOError (OpOpen path)), w)) ∧
  (fault (OpOpen path) = false →
   (∃ data, files w !! path = Some (Other data))
   ∨ (is_Some (files w !! path) ∧ fault (OpNewTSMReader path) = true) →
   processTSMFile fault cmd path w
   = (inl (ReadError path (IOError (OpNewTSMReader path))), w)).
Proof.
  unfold processTSMFile. split.
  - unfold bind at 1, os_Open.
    intros [Hnone| ->]; [|done]. rewrite Hnone. by destruct (fault (OpOpen path)).
  - unfold bind at 1, os_Open. intros ->. intros [[data Hdata]|[[f Hf] Hr]].
    + rewrite Hdata. unfold bind at 1, NewTSMReader. rewrite Hdata.
      by destruct (fault (OpNewTSMReader path)).
    + rewrite Hf. unfold bind at 1, NewTSMReader. by rewrite Hr.
Qed.

(** The rewrite, outcome by outcome: what it leaves alone and what it
    logs. *)
Lemma processTSMFile_effects cmd path w :
  let res := processTSMFile fault cmd path w in
  (∀ p, p ≠ path → under (outputPathOf path) p = false →
        under (idxPathOf path) p = false → files res.2 !! p = files w !! p) ∧
  (log_discard w = true → logged res.2 = logged w) ∧
  (∀ blocks, returned res = None → files w !! path = Some (Segment blocks) →
     files res.2 !! idxPathOf path = None ∧
     logged res.2 =
       if log_discard w then logged w
       else logged w ++ LogCreatingTemp (outputPathOf path)
                        :: map deletingLine (droppedBlocks cmd blocks)).
Proof.
  cbv zeta. destruct (processTSMFile fault cmd path w) as [res w'] eqn:Hrun.
  cbn [fst snd]. unfold returned. cbn [fst].
  unfold processTSMFile in Hrun.
  fold (outputPathOf path) in Hrun. fold (idxPathOf path) in Hrun.
  unfold bind at 1, os_Open in Hrun.
  destruct (fault (OpOpen path)) eqn:F1.
  { by injection Hrun as <- <-. }
  destruct (files w !! path) as [f|] eqn:Hfile.
  2:{ by injection Hrun as <- <-. }
  unfold bind at 1, NewTSMReader in Hrun. rewrite Hfile in Hrun.
  destruct (fault (OpNewTSMReader path)) eqn:F2.
  { by injection Hrun as <- <-. }
  destruct f as [blocks|data].
  2:{ by injection Hrun as <- <-. }
  unfold bind at 1, os_RemoveAll in Hrun.
  destruct (fault (OpRemoveAll (outputPathOf path))) eqn:F3.
  { by injection Hrun as <- <-. }
  unfold bind at 1 in Hrun.
  destruct (fault (OpRemoveAll (idxPathOf path))) eqn:F4.
  { injection Hrun as <- <-. simpl. split_and!; [|done|done].
    intros p _ Hp _. by apply lookup_RemoveAll. }
  simpl in Hrun.
  set (fs2 := filter (λ kv : string * File, under (idxPathOf path) kv.1 = false) _) in Hrun.
  assert (Hfs2 : ∀ p, under (outputPathOf path) p = false →
                      under (idxPathOf path) p = false → fs2 !! p = files w !! p).
  { intros p H1 H2. subst fs2. by rewrite !lookup_RemoveAll. }
  assert (Hidx2 : fs2 !! idxPathOf path = None).
  { subst fs2. apply map_lookup_filter_None. right. intros x _. simpl.
    unfold under. rewrite bool_decide_eq_true_2 by done. done. }
  unfold bind at 1, log_Printf in Hrun.
  set (w3 := log_append _ _) in Hrun.
  destruct (log_append_facts (LogCreatingTemp (outputPathOf path))
              (mkWorld fs2 (stdout w) (logged w) (log_discard w)))
    as (Hf3 & _ & Hd3 & Hl3).
  fold w3 in Hf3, Hd3, Hl3. simpl in Hf3, Hd3, Hl3.
  assert (Hq3 : log_discard w = true → logged w3 = logged w)
    by (intros Hd; by rewrite Hl3, Hd).
  unfold bind at 1, os_Create in Hrun.
  destruct (fault (OpCreate (outputPathOf path))) eqn:F5.
  { injection Hrun as <- <-. rewrite Hf3. split_and!; [|done|done].
    intros p _ H1 H2. by apply Hfs2. }
  unfold bind at 1, NewTSMWriter, bind at 1, attempt in Hrun.
  assert (Hout_ne : ∀ p, under (outputPathOf path) p = false → outputPathOf path ≠ p).
  { intros p Hu <-. unfold under in Hu. by rewrite bool_decide_eq_true_2 in Hu. }
  assert (Hidx_ne : outputPathOf path ≠ idxPathOf path).
  { unfold idxPathOf. intros H. symmetry in H. by apply string_app_ne in H. }
  assert (Hidx_path : path ≠ idxPathOf path).
  { intros H. apply (f_equal String.length) in H. unfold idxPathOf, outputPathOf in H.
    rewrite !string_length_app in H. simpl in H. lia. }
  destruct (fault (OpNewTSMWriter (outputPathOf path))) eqn:F6.
  { injection Hrun as <- <-. simpl. rewrite Hf3. split_and!; [|done|done].
    intros p _ H1 H2. rewrite lookup_insert_ne by auto. by apply Hfs2. }
  unfold bind at 1, ret in Hrun.
  match type of Hrun with context [rewriteBlocks _ _ ?r 0 ?bs ?tw 0 ?w4] =>
    pose proof (rewriteBlocks_spec fault cmd r bs 0 tw 0 w4) as Hloop;
    pose proof (rewriteBlocks_logged cmd r bs 0 tw 0 w4) as Hlog;
    destruct (rewriteBlocks fault cmd r 0 bs tw 0 w4) as [[e|[tw' d']] w5]
  end; cbn [fst snd] in Hloop, Hlog; simpl in Hloop, Hlog;
  destruct Hloop as (Hf5 & _ & Hd5 & Hloop); destruct Hlog as [Hq5 Hl5].
  { injection Hrun as <- <-. rewrite Hf5, Hf3. split_and!; [| |done].
    - intros p _ H1 H2. rewrite lookup_insert_ne by auto. by apply Hfs2.
    - intros Hd. rewrite Hq5 by congruence. auto. }
  destruct Hloop as (-> & -> & _ & _).
  specialize (Hl5 _ eq_refl). rewrite Hd3, Hl3 in Hl5.
  cbn [fst snd] in Hrun.
  unfold bind at 1, fmt_Print in Hrun.
  unfold bind at 1, WriteIndex, attempt in Hrun. cbn [w_path w_written] in Hrun.
  destruct (fault (OpWriteIndex (outputPathOf path))) eqn:F7.
  { injection Hrun as <- <-. simpl. rewrite Hf5, Hf3. split_and!; [| |done].
    - intros p _ H1 H2. rewrite lookup_insert_ne by auto. by apply Hfs2.
    - intros Hd. rewrite Hq5 by congruence. auto. }
  unfold bind at 1, Close, bind at 1, attempt in Hrun. cbn [w_path w_written] in Hrun.
  destruct (fault (OpClose (outputPathOf path))) eqn:F8.
  { injection Hrun as <- <-. simpl. rewrite Hf5, Hf3. split_and!; [| |done].
    - intros p _ H1 H2. rewrite lookup_insert_ne by auto. by apply Hfs2.
    - intros Hd. rewrite Hq5 by congruence. auto. }
  unfold os_Rename in Hrun. simpl in Hrun.
  rewrite lookup_insert_eq in Hrun.
  destruct (fault (OpRename (outputPathOf path) path)) eqn:F9.
  { injection Hrun as <- <-. simpl. rewrite Hf5, Hf3. split_and!; [| |done].
    - intros p _ H1 H2. rewrite !lookup_insert_ne by auto. by apply Hfs2.
    - intros Hd. rewrite Hq5 by congruence. auto. }
  injection Hrun as <- <-. simpl. rewrite Hf5, Hf3.
  split_and!.
  - intros p Hp H1 H2. rewrite lookup_insert_ne by done.
    rewrite lookup_delete_ne by auto. rewrite !lookup_insert_ne by auto. by apply Hfs2.
  - intros Hd. rewrite Hq5 by congruence. auto.
  - intros bs _ [= <-]. split.
    + rewrite lookup_insert_ne by done.
      rewrite lookup_delete_ne by done. by rewrite !lookup_insert_ne.
    + rewrite Hl5. destruct (log_discard w); [done|]. by rewrite <- app_assoc.
Qed.

(** X2. Whatever its outcome, a rewrite changes no file other than its
    input and what lies at or below its two temporary paths. *)
Theorem processTSMFile_touches_only_its_paths cmd path w p :
  p ≠ path →
  under (outputPathOf path) p = false →
  under (idxPathOf path) p = false →
  files (processTSMFile fault cmd path w).2 !! p = files w !! p.
Proof.
  intros Hp H1 H2.
  destruct (processTSMFile_effects cmd path w) as (Hframe & _). by apply Hframe.
Qed.

(** X3. When the input does not exist, cannot be opened or is not a TSM
    file, the rewrite stops before it removes or creates anything: the
    world is left exactly as it was, and the error is the open error or the
    reader's error wrapped with the path. *)
Theorem processTSMFile_unreadable_input_changes_nothing cmd path w :
  files w !! path = None ∨ fault (OpOpen path) = true
  ∨ (∃ data, files w !! path = Some (Other data))
  ∨ fault (OpNewTSMReader path) = true →
  ∃ e, processTSMFile fault cmd path w = (inl e, w) ∧
       (e = IOError (OpOpen path)
        ∨ e = ReadError path (IOError (OpNewTSMReader path))) ∧
       (files w !! path = None → e = IOError (OpOpen path)).
Proof.
  intros Hbad. destruct (processTSMFile_early cmd path w) as [Hopen Hread].
  destruct (fault (OpOpen path)) eqn:F1.
  { exists (IOError (OpOpen path)). split; [apply Hopen; by right|]. by split; [left|]. }
  destruct (files w !! path) as [f|] eqn:Hfile.
  2:{ exists (IOError (OpOpen path)). split; [apply Hopen; by left|]. by split; [left|]. }
  exists (ReadError path (IOError (OpNewTSMReader path))).
  split; [|by split; [right|]].
  apply Hread; [done|].
  destruct Hbad as [?|[?|[[data Hd]|Hr]]]; [done|done|..].
  - left. by exists data.
  - right. split; [by exists f|done].
Qed.

(** X4. A rewrite that succeeds leaves no temporary file behind, whatever
    was at the temporary paths before. *)
Theorem processTSMFile_leaves_no_temporary_file cmd path w blocks :
  files w !! path = Some (Segment blocks) →
  (∀ op, op ∈ rewriteSteps cmd path blocks → fault op = false) →
  let res := processTSMFile fault cmd path w in
  files res.2 !! outputPathOf path = None ∧ files res.2 !! idxPathOf path = None.
Proof.
  intros Hfile Hok res.
  destruct (processTSMFile_ok fault cmd path w blocks Hfile Hok) as (Hr & _ & Hout & _).
  destruct (processTSMFile_effects cmd path w) as (_ & _ & Hsucc).
  split; [done|]. by destruct (Hsucc blocks Hr Hfile).
Qed.

(** X5. A rewrite that succeeds logs the creation of the temporary file and
    then one line per dropped block, in the order of the blocks, with the
    key, the time range and the payload size of the block; when the logger
    discards, and on every outcome, it logs nothing. *)
Theorem processTSMFile_logs_each_dropped_block cmd path w blocks :
  files w !! path = Some (Segment blocks) →
  (∀ op, op ∈ rewriteSteps cmd path blocks → fault op = false) →
  let res := processTSMFile fault cmd path w in
  logged res.2 =
    (if log_discard w then logged w
     else logged w ++ LogCreatingTemp (outputPathOf path)
                      :: map deletingLine (droppedBlocks cmd blocks)) ∧
  (∀ path' w', log_discard w' = true →
               logged (processTSMFile fault cmd path' w').2 = logged w').
Proof.
  intros Hfile Hok res.
  destruct (processTSMFile_ok fault cmd path w blocks Hfile Hok) as (Hr & _).
  destruct (processTSMFile_effects cmd path w) as (_ & _ & Hsucc).
  split; [by destruct (Hsucc blocks Hr Hfile)|].
  intros path' w' Hd. by destruct (processTSMFile_effects cmd path' w') as (_ & Hq & _); auto.
Qed.

Lemma keptBlocks_all cmd blocks :
  (∀ b, b ∈ blocks → serieKeyOf cmd b ∉ FilterSet cmd) →
  keptBlocks cmd blocks = blocks ∧ droppedBlocks cmd blocks = [].
Proof.
  induction blocks as [|b blocks IH]; intros Hall; [done|].
  rewrite keptBlocks_cons, droppedBlocks_cons.
  rewrite decide_True by (apply Hall; by left).
  rewrite decide_False by (intros Hin; by apply (Hall b); [left|]).
  destruct IH as [-> ->]; [|done]. intros b' Hb'. apply Hall. by right.
Qed.

(** X6. A rewrite that matches nothing is the identity on the segment: when
    no block of the file has its series key in the filter set (in
    particular when the filter set is empty) and no call fails, the file
    holds the same block sequence afterwards and the count printed is 0. *)
Theorem processTSMFile_no_match_is_identity cmd path w blocks :
  files w !! path = Some (Segment blocks) →
  (series cmd = ∅ ∨ ∀ b, b ∈ blocks → serieKeyOf cmd b ∉ FilterSet cmd) →
  (∀ op, op ∈ rewriteSteps cmd path blocks → fault op = false) →
  let res := processTSMFile fault cmd path w in
  returned res = None ∧
  files res.2 !! path = files w !! path ∧
  stdout res.2 = stdout w ++ [OutDropped 0].
Proof.
  intros Hfile Hnone Hok res.
  assert (Hall : ∀ b, b ∈ blocks → serieKeyOf cmd b ∉ FilterSet cmd).
  { destruct Hnone as [Hempty|Hall]; [|done].
    intros b _. unfold FilterSet. rewrite Hempty, dom_empty_L. set_solver. }
  destruct (keptBlocks_all cmd blocks Hall) as [Hk Hd].
  destruct (processTSMFile_ok fault cmd path w blocks Hfile Hok) as (Hr & Hf & _ & Hout).
  fold res in Hr, Hf, Hout. rewrite Hk in Hf. rewrite Hd in Hout.
  by rewrite Hfile.
Qed.

(** *** The lists the locator builds *)

Lemma walkFn_lists cmd path cmd' :
  walkFn cmd path None = (None, cmd') →
  ∀ key, default [] (tsmFiles cmd' !! key) =
         default [] (tsmFiles cmd !! key)
         ++ (if decide (unitKey cmd path = Some key) then [path] else []).
Proof.
  unfold walkFn, unitKey, isSegmentPath.
  destruct (decide (filepath_Ext path = "." +:+ TSMFileExtension)) as [Hext|Hext].
  2:{ rewrite bool_decide_eq_false_2 by done. simpl. intros [= <-] key.
      by rewrite app_nil_r. }
  rewrite bool_decide_eq_true_2 by done. simpl.
  destruct (filepath_Rel (dataDir cmd) path) as [e|relPath]; [done|].
  destruct (strings_Split relPath PathSeparator) as [|d0 [|d1 rest]]; simpl; [done..|].
  destruct (decide ((d0 = database cmd ∨ database cmd = "")
                    ∧ (d1 = retentionPolicy cmd ∨ retentionPolicy cmd = ""))) as [Hok|Hno].
  - destruct Hok as [Hdb Hrp].
    assert (bool_decide (d0 = database cmd) || bool_decide (database cmd = "") = true) as ->
      by (apply orb_true_iff; rewrite !bool_decide_eq_true; tauto).
    assert (bool_decide (d1 = retentionPolicy cmd) || bool_decide (retentionPolicy cmd = "")
            = true) as ->
      by (apply orb_true_iff; rewrite !bool_decide_eq_true; tauto).
    intros [= <-] key. simpl.
    destruct (decide (Some (filepath_Join d0 d1) = Some key)) as [[= <-]|Hne].
    + by rewrite lookup_insert_eq.
    + rewrite lookup_insert_ne by congruence. by rewrite app_nil_r.
  - assert (∀ key, default [] (tsmFiles cmd !! key)
                   = default [] (tsmFiles cmd !! key)
                     ++ (if decide (@None string = Some key) then [path] else [])) as Hsame
      by (intros key; by rewrite app_nil_r).
    destruct (bool_decide (d0 = database cmd) || bool_decide (database cmd = "")) eqn:Hdb;
      [|by intros [= <-]].
    destruct (bool_decide (d1 = retentionPolicy cmd) || bool_decide (retentionPolicy cmd = ""))
      eqn:Hrp; [|by intros [= <-]].
    exfalso. apply Hno. apply orb_true_iff in Hdb, Hrp.
    rewrite !bool_decide_eq_true in Hdb, Hrp. tauto.
Qed.

Lemma walk_loop_lists visits : ∀ cmd cmd',
  walk_loop visits cmd = (None, cmd') →
  ∀ key, default [] (tsmFiles cmd' !! key) =
         default [] (tsmFiles cmd !! key)
         ++ map wv_path (filter (λ v, unitKey cmd (wv_path v) = Some key) visits).
Proof.
  induction visits as [|v visits IH]; intros cmd cmd'; simpl.
  - intros [= <-] key. by rewrite app_nil_r.
  - destruct (walkFn cmd (wv_path v) (wv_err v)) as [[e|] cmd1] eqn:Hfn; [done|].
    pose proof Hfn as Hfn'. apply walkFn_spec in Hfn' as ([m ->] & Herr & _).
    rewrite Herr in Hfn. intros Hloop key.
    rewrite (IH _ _ Hloop key), (walkFn_lists _ _ _ Hfn key), <- app_assoc. f_equal.
    rewrite filter_cons.
    change (unitKey (set_tsmFiles cmd m)) with (unitKey cmd).
    by destruct (decide (unitKey cmd (wv_path v) = Some key)).
Qed.

(** X7. On success the locator changes nothing of the command but
    [tsmFiles], and under every key the list it leaves is the list it found
    followed by the paths of the walk that belong under that key, in the
    order of the walk and once per visit: nothing is reordered, dropped or
    listed under another key. *)
Theorem walkTSMFiles_appends_in_walk_order cmd w :
  (walkTSMFiles cmd w).1 = None →
  let cmd' := (walkTSMFiles cmd w).2 in
  cmd' = set_tsmFiles cmd (tsmFiles cmd') ∧
  ∀ key, default [] (tsmFiles cmd' !! key) =
         default [] (tsmFiles cmd !! key)
         ++ map wv_path (filter (λ v, unitKey cmd (wv_path v) = Some key)
                                (filepath_Walk (files w) (dataDir cmd))).
Proof.
  unfold walkTSMFiles.
  destruct (walk_loop (filepath_Walk (files w) (dataDir cmd)) cmd) as [r cmd'] eqn:Hloop.
  simpl. intros ->. split.
  - apply walk_loop_spec in Hloop as ([m ->] & _). done.
  - by apply walk_loop_lists.
Qed.

Lemma walk_loop_first_error visits : ∀ cmd e cmd',
  walk_loop visits cmd = (Some e, cmd') →
  ∃ pre v post, visits = pre ++ v :: post ∧ walk_loop pre cmd = (None, cmd')
                ∧ visitFails cmd v e.
Proof.
  induction visits as [|v visits IH]; intros cmd e cmd'; simpl; [done|].
  destruct (walkFn cmd (wv_path v) (wv_err v)) as [[e1|] cmd1] eqn:Hfn.
  - intros [= <- <-]. exists [], v, visits. split; [done|].
    pose proof Hfn as Hfn'. apply walkFn_spec in Hfn' as (_ & Hwhy).
    assert (cmd1 = cmd) as ->.
    { unfold walkFn in Hfn. repeat case_match; by simplify_eq. }
    split; [done|]. exact Hwhy.
  - intros Hloop. pose proof Hfn as Hfn'. apply walkFn_spec in Hfn' as ([m ->] & _).
    apply IH in Hloop as (pre & v' & post & -> & Hpre & Hfail).
    exists (v :: pre), v', post. split; [done|]. split; [|done].
    simpl. by rewrite Hfn.
Qed.

Lemma walk_loop_no_failure visits cmd cmd' :
  walk_loop visits cmd = (None, cmd') →
  ∀ v e, v ∈ visits → ¬ visitFails cmd v e.
Proof.
  intros Hloop v e Hv Hfail. apply walk_loop_spec in Hloop as (_ & Hloop).
  destruct (Hloop eq_refl) as [Hall _]. destruct (Hall v Hv) as [Herr Hcomp].
  destruct Hfail as [?|(_ & Hseg & Hbad)]; [congruence|].
  destruct (Hcomp Hseg) as (d0 & d1 & Hc). destruct Hbad as [Hrel|[Hsh _]].
  - destruct Hc as (rel & rest & Hrel' & _). congruence.
  - by apply components_not_shallow in Hc.
Qed.

(** X8. The locator stops at the first visit that fails: when it returns an
    error, the error is that of a visit (the error of the walk itself, the
    error of [filepath.Rel], or the structural error naming the path that is
    too shallow), no earlier visit fails, and [tsmFiles] holds what the
    visits before it contributed and nothing of the later ones. *)
Theorem walkTSMFiles_stops_at_first_error cmd w e :
  (walkTSMFiles cmd w).1 = Some e →
  ∃ pre v post,
    filepath_Walk (files w) (dataDir cmd) = pre ++ v :: post ∧
    visitFails cmd v e ∧
    (∀ v' e', v' ∈ pre → ¬ visitFails cmd v' e') ∧
    walk_loop pre cmd = (None, (walkTSMFiles cmd w).2).
Proof.
  unfold walkTSMFiles.
  destruct (walk_loop (filepath_Walk (files w) (dataDir cmd)) cmd) as [r cmd'] eqn:Hloop.
  simpl. intros ->.
  apply walk_loop_first_error in Hloop as (pre & v & post & Hsplit & Hpre & Hfail).
  exists pre, v, post. split; [done|]. split; [done|]. split; [|done].
  intros v' e' Hv'. by eapply walk_loop_no_failure.
Qed.

(** The locator succeeds exactly when no visit of the walk fails. *)
Lemma walkTSMFiles_nil_iff cmd w :
  (walkTSMFiles cmd w).1 = None ↔ ¬ locateFails cmd w.
Proof.
  destruct (walkTSMFiles cmd w) as [r cmd'] eqn:Hwalk. simpl. split.
  - intros ->. by apply walkTSMFiles_spec in Hwalk as (_ & Hno); auto.
  - intros Hno. destruct r as [e|]; [|done]. exfalso. apply Hno.
    unfold walkTSMFiles in Hwalk.
    apply walk_loop_first_error in Hwalk as (pre & v & post & Hsplit & _ & Hfail).
    exists v. split; [rewrite Hsplit; set_solver|].
    destruct Hfail as [Herr|(_ & Hseg & [Hrel|[Hsh _]])]; [left; eauto|right..].
    + split; [done|]. left. eauto.
    + split; [done|]. by right.
Qed.

(** *** The series filter loader *)

(** The scan loop reads [j] lines, all of whose reads succeed, and then
    either runs out of lines or meets a failing read. *)
Lemma scan_loop_full file lines : ∀ i cmd,
  let res := scan_loop fault file i lines cmd in
  ∃ j, (j ≤ length lines)%nat ∧
       (∀ j', (j' < j)%nat → fault (OpScan file (i + j')) = false) ∧
       res.2 = set_series cmd (series res.2) ∧
       (∀ k, series res.2 !! k
             = if decide (k ∈ take j lines) then Some true else series cmd !! k) ∧
       match res.1 with
       | None => j = length lines ∧ fault (OpScan file (i + j)) = false
       | Some e => e = IOError (OpScan file (i + j)) ∧ fault (OpScan file (i + j)) = true
       end.
Proof.
  induction lines as [|text lines IH]; intros i cmd; cbv zeta; simpl.
  - exists 0. rewrite Nat.add_0_r.
    destruct (fault (OpScan file i)) eqn:Hf; cbn [fst snd];
      (split; [lia|]); (split; [intros; lia|]); (split; [by destruct cmd|]);
      (split; [intros k; destruct (decide (k ∈ take 0 [])) as [Hin|?];
               [by apply elem_of_nil in Hin|done]|]); done.
  - destruct (fault (OpScan file i)) eqn:Hf; cbn [fst snd].
    { exists 0. rewrite Nat.add_0_r. split; [lia|]. split; [intros; lia|].
      split; [by destruct cmd|]. split; [|done].
      intros k. destruct (decide (k ∈ take 0 (text :: lines))) as [Hin|?];
        [by apply elem_of_nil in Hin|done]. }
    destruct (IH (S i) (set_series cmd (<[text:=true]> (series cmd))))
      as (j & Hj & Hreads & Hcmd & Hlook & Hres).
    exists (S j). split; [lia|]. split.
    { intros [|j'] Hj'; [by rewrite Nat.add_0_r|].
      replace (i + S j') with (S i + j') by lia. apply Hreads. lia. }
    split; [by rewrite Hcmd|]. split.
    { intros k. rewrite Hlook. simpl.
      destruct (decide (k = text)) as [->|Hne].
      - rewrite lookup_insert_eq. rewrite (decide_True (P := text ∈ text :: _)) by set_solver.
        by case_decide.
      - rewrite lookup_insert_ne by done.
        destruct (decide (k ∈ take j lines)) as [Hin|Hin].
        + by rewrite decide_True by set_solver.
        + by rewrite decide_False by set_solver. }
    replace (i + S j) with (S i + j) by lia.
    destruct (scan_loop fault file (S i) lines _).1; [done|].
    destruct Hres as [-> ?]. done.
Qed.

(** What a successful load leaves in the command. *)
Lemma parseSeriesFile_series cmd w :
  (parseSeriesFile fault cmd w).1 = None →
  let cmd' := (parseSeriesFile fault cmd w).2 in
  let lines := scanLines (from_option file_bytes "" (files w !! seriesFile cmd)) in
  cmd' = set_series cmd (series cmd') ∧
  (∀ k, series cmd' !! k = if decide (k ∈ lines) then Some true else series cmd !! k) ∧
  FilterSet cmd' = FilterSet cmd ∪ list_to_set lines.
Proof.
  unfold parseSeriesFile, os_Open.
  destruct (fault (OpOpen (seriesFile cmd))); [done|].
  destruct (files w !! seriesFile cmd) as [f|] eqn:Hfile; [|done].
  rewrite Hfile. simpl.
  set (lines := scanLines (file_bytes f)).
  destruct (scan_loop_full (seriesFile cmd) lines 0 cmd) as (j & Hj & _ & Hcmd & Hlook & Hres).
  intros Hnone. rewrite Hnone in Hres. destruct Hres as [-> _].
  rewrite firstn_all in Hlook. split; [done|]. split; [done|].
  unfold FilterSet. apply set_eq. intros k.
  rewrite elem_of_union, !elem_of_dom, elem_of_list_to_set, Hlook.
  destruct (decide (k ∈ lines)) as [Hin|Hin].
  - split; [by right|eauto].
  - split; [by left|]. by intros [?|?].
Qed.

(** X9. Loading the series file adds every line of the file to
    [cmd.series] with the value true, keeps the entries that were there and
    touches no other field of the command; lines are taken as they are, an
    empty line giving the empty key, and repeated lines collapse. *)
Theorem parseSeriesFile_loads_every_line cmd w :
  (parseSeriesFile fault cmd w).1 = None →
  let cmd' := (parseSeriesFile fault cmd w).2 in
  let lines := scanLines (from_option file_bytes "" (files w !! seriesFile cmd)) in
  cmd' = set_series cmd (series cmd') ∧
  (∀ k, series cmd' !! k = if decide (k ∈ lines) then Some true else series cmd !! k) ∧
  FilterSet cmd' = FilterSet cmd ∪ list_to_set lines.
Proof. apply parseSeriesFile_series. Qed.


(** Loading succeeds exactly when the series file can be opened and no
    read of the scanner fails. *)
Lemma parseSeriesFile_nil_iff cmd w :
  (parseSeriesFile fault cmd w).1 = None ↔ ¬ loadFails fault cmd w.
Proof.
  split.
  - intros Hnone. destruct (parseSeriesFile fault cmd w) as [r cmd'] eqn:Hp.
    simpl in Hnone. subst r. by apply parseSeriesFile_spec in Hp as (_ & Hno); auto.
  - intros Hno. unfold parseSeriesFile, os_Open.
    destruct (fault (OpOpen (seriesFile cmd))) eqn:Hopen.
    { exfalso. apply Hno. right. by left. }
    destruct (files w !! seriesFile cmd) as [f|] eqn:Hfile.
    2:{ exfalso. apply Hno. by left. }
    rewrite Hfile. simpl.
    destruct (scan_loop_full (seriesFile cmd) (scanLines (file_bytes f)) 0 cmd)
      as (j & Hj & _ & _ & _ & Hres).
    destruct (scan_loop fault (seriesFile cmd) 0 (scanLines (file_bytes f)) cmd).1 as [e|];
      [|done].
    exfalso. apply Hno. right. right. exists j. rewrite Hfile. simpl.
    by destruct Hres.
Qed.

(** *** Lines of the series file *)








(** *** The files of a unit and the units of a run *)

Lemma processFiles_cons cmd file l w :
  processFiles fault cmd (file :: l) w =
  processFiles fault cmd l
    (processTSMFile fault cmd file (fmt_Print (OutProcessingFile file) w).2).2.
Proof. reflexivity. Qed.

Lemma deleteFromTSMFiles_eq cmd fs w :
  deleteFromTSMFiles fault cmd fs w = (inr (), (processFiles fault cmd (sort_Strings fs) w).2).
Proof.
  unfold deleteFromTSMFiles, bind, ret.
  destruct (processFiles_spec fault cmd (sort_Strings fs) w) as [Hr _].
  destruct (processFiles fault cmd (sort_Strings fs) w) as [r w']. simpl in *. by subst r.
Qed.

Lemma deleteSeries_loop_cons cmd key keys w :
  deleteSeries_loop fault cmd (key :: keys) w =
  match tsmFiles cmd !! key with
  | Some fs =>
      deleteSeries_loop fault cmd keys
        (processFiles fault cmd (sort_Strings fs) (fmt_Print (OutProcessingUnit key) w).2).2
  | None => deleteSeries_loop fault cmd keys w
  end.
Proof.
  simpl. destruct (tsmFiles cmd !! key) as [fs|]; [|done].
  unfold bind at 1, fmt_Print. unfold bind at 1. by rewrite deleteFromTSMFiles_eq.
Qed.

Lemma elem_of_sort_Strings f l : f ∈ sort_Strings l ↔ f ∈ l.
Proof. unfold sort_Strings. by rewrite merge_sort_Permutation. Qed.

(** Rewriting the files of a list, none of whose calls fails, among files
    whose temporary paths do not reach one another. *)
Lemma contentAfter_ext cmd orig (D D' : gset string) f :
  (f ∈ D ↔ f ∈ D') → contentAfter cmd orig D f = contentAfter cmd orig D' f.
Proof.
  intros H. unfold contentAfter. f_equal.
  destruct (decide (f ∈ D)), (decide (f ∈ D')); tauto.
Qed.

Lemma processFiles_inv cmd (S : list string) (orig : string → list Block) :
  (∀ op, fault op = false) →
  (∀ f g, f ∈ S → g ∈ S → f ≠ g → apart g f) →
  ∀ l (D : gset string) w,
    (∀ f, f ∈ l → f ∈ S) →
    (∀ f, f ∈ S → files w !! f = Some (contentAfter cmd orig D f)) →
    ∀ f, f ∈ S →
      files (processFiles fault cmd l w).2 !! f
      = Some (contentAfter cmd orig (list_to_set l ∪ D) f).
Proof.
  intros Hok Hapart. induction l as [|g l IH]; intros D w Hl Hinv f Hf.
  - simpl. rewrite Hinv by done. f_equal; apply contentAfter_ext; clear; set_solver.
  - rewrite processFiles_cons.
    set (w1 := (fmt_Print (OutProcessingFile g) w).2).
    assert (Hg : g ∈ S) by (apply Hl; by left).
    assert (Hfile : files w1 !! g = Some (Segment
              (if decide (g ∈ D) then keptBlocks cmd (orig g) else orig g)))
      by (by apply Hinv).
    destruct (processTSMFile_ok fault cmd g w1 _ Hfile (λ op _, Hok op)) as (_ & Hnew & _).
    pose proof (processTSMFile_effects cmd g w1) as (Hframe & _).
    rewrite (IH ({[g]} ∪ D)); [| intros; apply Hl; by right| |done].
    + f_equal; apply contentAfter_ext; clear; set_solver.
    + intros f' Hf'. destruct (decide (f' = g)) as [->|Hne].
      * rewrite Hnew. unfold contentAfter.
        rewrite (decide_True (P := g ∈ {[g]} ∪ D)) by (clear; set_solver).
        case_decide; [by rewrite keptBlocks_idemp|done].
      * destruct (Hapart f' g Hf' Hg Hne) as [H1 H2].
        rewrite Hframe by done. subst w1. simpl. rewrite Hinv by done.
        f_equal; apply contentAfter_ext; clear -Hne; set_solver.
Qed.

Lemma processFiles_frame cmd l : ∀ w p,
  (∀ g, g ∈ l → p ≠ g ∧ apart g p) →
  files (processFiles fault cmd l w).2 !! p = files w !! p.
Proof.
  induction l as [|g l IH]; intros w p Hp; [done|].
  rewrite processFiles_cons, IH by (intros; apply Hp; by right).
  destruct (Hp g) as (Hne & H1 & H2); [by left|].
  pose proof (processTSMFile_effects cmd g (fmt_Print (OutProcessingFile g) w).2)
    as (Hframe & _).
  by rewrite Hframe.
Qed.

Lemma deleteSeries_loop_inv cmd (S : list string) (orig : string → list Block) :
  (∀ op, fault op = false) →
  (∀ f g, f ∈ S → g ∈ S → f ≠ g → apart g f) →
  ∀ keys (D : gset string) w,
    (∀ f, f ∈ filesInOrder cmd keys → f ∈ S) →
    (∀ f, f ∈ S → files w !! f = Some (contentAfter cmd orig D f)) →
    ∀ f, f ∈ S →
      files (deleteSeries_loop fault cmd keys w).2 !! f
      = Some (contentAfter cmd orig (list_to_set (filesInOrder cmd keys) ∪ D) f).
Proof.
  intros Hok Hapart. induction keys as [|key keys IH]; intros D w Hsub Hinv f Hf.
  - simpl. rewrite Hinv by done. unfold filesInOrder. simpl. f_equal; apply contentAfter_ext; clear; set_solver.
  - rewrite deleteSeries_loop_cons.
    assert (Hsub' : ∀ f, f ∈ filesInOrder cmd keys → f ∈ S).
    { intros f' Hf'. apply Hsub. unfold filesInOrder in *. simpl.
      apply elem_of_app. by right. }
    unfold filesInOrder at 1. cbn [map concat]. fold (filesInOrder cmd keys).
    destruct (tsmFiles cmd !! key) as [fs|] eqn:Hkey; simpl.
    + rewrite (IH (list_to_set (sort_Strings fs) ∪ D)); [|done| |done].
      * f_equal; apply contentAfter_ext; clear; set_solver.
      * intros f' Hf'. apply (processFiles_inv cmd S orig Hok Hapart); [|done|done].
        intros g Hg. apply Hsub. unfold filesInOrder. simpl. rewrite Hkey. simpl.
        apply elem_of_app. by left.
    + rewrite (IH D) by done. f_equal; apply contentAfter_ext; clear; set_solver.
Qed.

Lemma deleteSeries_loop_frame cmd keys : ∀ w p,
  (∀ g, g ∈ filesInOrder cmd keys → p ≠ g ∧ apart g p) →
  files (deleteSeries_loop fault cmd keys w).2 !! p = files w !! p.
Proof.
  induction keys as [|key keys IH]; intros w p Hp; [done|].
  rewrite deleteSeries_loop_cons.
  assert (Hp' : ∀ g, g ∈ filesInOrder cmd keys → p ≠ g ∧ apart g p).
  { intros g Hg. apply Hp. unfold filesInOrder in *. simpl. apply elem_of_app. by right. }
  destruct (tsmFiles cmd !! key) as [fs|] eqn:Hkey; [|by apply IH].
  rewrite IH by done. rewrite processFiles_frame; [done|].
  intros g Hg. apply Hp. unfold filesInOrder. simpl. rewrite Hkey. simpl.
  apply elem_of_app. by left.
Qed.

Lemma deleteSeries_loop_nil cmd keys : ∀ w,
  (deleteSeries_loop fault cmd keys w).1 = inr ().
Proof.
  induction keys as [|key keys IH]; intros w; [done|].
  rewrite deleteSeries_loop_cons. by destruct (tsmFiles cmd !! key).
Qed.

Lemma elem_of_concat {A} (x : A) (ls : list (list A)) :
  x ∈ concat ls ↔ ∃ l, x ∈ l ∧ l ∈ ls.
Proof.
  induction ls as [|l ls IH]; simpl.
  - split; [by intros ?%elem_of_nil|by intros (l & _ & ?%elem_of_nil)].
  - rewrite elem_of_app, IH. split.
    + intros [Hx|(l' & Hx & Hl')]; [exists l; split; [done|by left]|].
      exists l'. split; [done|by right].
    + intros (l' & Hx & [->|Hl']%elem_of_cons); [by left|]. right. by exists l'.
Qed.

Lemma elem_of_unitFiles cmd f :
  f ∈ unitFiles cmd ↔ ∃ key fs, tsmFiles cmd !! key = Some fs ∧ f ∈ fs.
Proof.
  unfold unitFiles. rewrite elem_of_concat. split.
  - intros (fs & Hf & Hfs). apply list_elem_of_fmap in Hfs as ([key fs'] & -> & Hin).
    apply elem_of_map_to_list in Hin. by exists key, fs'.
  - intros (key & fs & Hkey & Hf). exists fs. split; [done|].
    apply list_elem_of_fmap. exists (key, fs). split; [done|]. by apply elem_of_map_to_list.
Qed.

Lemma elem_of_filesInOrder cmd keys f :
  f ∈ filesInOrder cmd keys ↔ ∃ key fs, key ∈ keys ∧ tsmFiles cmd !! key = Some fs ∧ f ∈ fs.
Proof.
  unfold filesInOrder. rewrite elem_of_concat. split.
  - intros (l & Hf & Hl). apply list_elem_of_fmap in Hl as (key & -> & Hkey).
    apply (proj1 (elem_of_sort_Strings _ _)) in Hf.
    destruct (tsmFiles cmd !! key) as [fs|] eqn:Hfs; [|by apply elem_of_nil in Hf].
    by exists key, fs.
  - intros (key & fs & Hkey & Hfs & Hf).
    exists (sort_Strings (default [] (tsmFiles cmd !! key))). split.
    + apply elem_of_sort_Strings. by rewrite Hfs.
    + apply list_elem_of_fmap. by exists key.
Qed.

Lemma filesInOrder_range cmd f :
  f ∈ filesInOrder cmd (range_keys (tsmFiles cmd)) ↔ f ∈ unitFiles cmd.
Proof.
  rewrite elem_of_filesInOrder, elem_of_unitFiles. split.
  - intros (key & fs & _ & Hkey & Hf). by exists key, fs.
  - intros (key & fs & Hkey & Hf). exists key, fs. split; [|done].
    rewrite range_keys_perm. apply list_elem_of_fmap. exists (key, fs).
    split; [done|]. by apply elem_of_map_to_list.
Qed.

(** The units of a command, none of whose calls fails. *)
Lemma deleteSeries_ok cmd w (orig : string → list Block) :
  (∀ op, fault op = false) →
  (∀ f, f ∈ unitFiles cmd → files w !! f = Some (Segment (orig f))) →
  (∀ f g, f ∈ unitFiles cmd → g ∈ unitFiles cmd → f ≠ g → apart g f) →
  let res := deleteSeries fault cmd w in
  returned res = None ∧
  (∀ f, f ∈ unitFiles cmd →
        files res.2 !! f = Some (Segment (keptBlocks cmd (orig f)))) ∧
  (∀ p, (∀ g, g ∈ unitFiles cmd → p ≠ g ∧ apart g p) → files res.2 !! p = files w !! p).
Proof.
  intros Hok Hfiles Hapart res. unfold res, deleteSeries, returned.
  rewrite deleteSeries_loop_nil. split; [done|]. split.
  - intros f Hf.
    rewrite (deleteSeries_loop_inv cmd (unitFiles cmd) orig Hok Hapart _ ∅ w); [| | |done].
    + unfold contentAfter. rewrite decide_True; [done|].
      apply elem_of_union_l, elem_of_list_to_set. by apply filesInOrder_range.
    + intros f' Hf'. by apply filesInOrder_range.
    + intros f' Hf'. rewrite Hfiles by done. unfold contentAfter.
      destruct (decide (f' ∈ (∅ : gset string))) as [Hin|_]; [|done].
      by apply not_elem_of_empty in Hin.
  - intros p Hp. apply deleteSeries_loop_frame. intros g Hg. apply Hp.
    by apply filesInOrder_range.
Qed.

(** X12. A run of [deleteSeries] none of whose calls fails rewrites every
    file of every unit: when the files of the units are segments and the
    temporary paths of one do not reach another, each of them ends up
    holding its blocks whose series key is not in the filter set, in order,
    and every file that is neither one of them nor reached by their
    temporary paths is what it was. *)
Theorem deleteSeries_rewrites_every_file cmd w (orig : string → list Block) :
  (∀ op, fault op = false) →
  (∀ f, f ∈ unitFiles cmd → files w !! f = Some (Segment (orig f))) →
  (∀ f g, f ∈ unitFiles cmd → g ∈ unitFiles cmd → f ≠ g → apart g f) →
  let res := deleteSeries fault cmd w in
  returned res = None ∧
  (∀ f, f ∈ unitFiles cmd →
        files res.2 !! f = Some (Segment (keptBlocks cmd (orig f)))) ∧
  (∀ p, (∀ g, g ∈ unitFiles cmd → p ≠ g ∧ apart g p) → files res.2 !! p = files w !! p).
Proof. apply deleteSeries_ok. Qed.







(** *** The whole run *)

Lemma printSeries_world keys : ∀ w,
  (printSeries keys w).1 = inr () ∧
  files (printSeries keys w).2 = files w ∧
  logged (printSeries keys w).2 = logged w ∧
  log_discard (printSeries keys w).2 = log_discard w.
Proof.
  induction keys as [|k keys IH]; intros w; [done|].
  simpl. unfold bind, fmt_Print.
  exact (IH (mkWorld (files w) (stdout w ++ [OutSeries k]) (logged w) (log_discard w))).
Qed.

Lemma locateFails_files cmd w w' :
  files w' = files w → locateFails cmd w' ↔ locateFails cmd w.
Proof. intros H. unfold locateFails. by rewrite H. Qed.

Lemma loadFails_files cmd m w w' :
  files w' = files w → loadFails fault (set_tsmFiles cmd m) w' ↔ loadFails fault cmd w.
Proof. intros H. unfold loadFails. simpl. by rewrite H. Qed.

(** X14. [Run] returns nil exactly when the flags parse, a series file is
    named, locating the segment files succeeds and loading the series file
    succeeds: no failure of any rewrite ever makes the run fail. *)
Theorem Run_returns_nil_iff cmd args w :
  (Run fault cmd args w).1.1 = None ↔
  ∃ flags, flag_Parse cmd args = inr flags ∧ seriesFile flags ≠ ""
           ∧ ¬ locateFails flags w ∧ ¬ loadFails fault flags w.
Proof.
  unfold Run. destruct (flag_Parse cmd args) as [e|flags] eqn:Hparse.
  { split; [done|]. by intros (flags & ? & _). }
  set (w0 := if negb (verbose flags) then _ else w).
  assert (Hw0 : files w0 = files w) by (subst w0; by destruct (verbose flags)).
  destruct (bool_decide (seriesFile flags = "")) eqn:Hsf.
  { apply bool_decide_eq_true in Hsf. split; [done|].
    intros (flags' & [= <-] & Hne & _). done. }
  apply bool_decide_eq_false in Hsf.
  pose proof (walkTSMFiles_nil_iff flags w0) as Hwalk.
  rewrite (locateFails_files flags w w0 Hw0) in Hwalk.
  destruct (walkTSMFiles flags w0) as [[e|] cmd1] eqn:Hw; simpl in Hwalk.
  { split; [done|]. intros (flags' & [= <-] & _ & Hno & _). by apply Hwalk in Hno. }
  apply walkTSMFiles_spec in Hw as ([m ->] & _).
  pose proof (parseSeriesFile_nil_iff (set_tsmFiles flags m) w0) as Hload.
  rewrite (loadFails_files flags m w w0 Hw0) in Hload.
  destruct (parseSeriesFile fault (set_tsmFiles flags m) w0) as [[e|] cmd2]; simpl in Hload.
  { split; [done|]. intros (flags' & [= <-] & _ & _ & Hno). by apply Hload in Hno. }
  unfold deleteSeries.
  pose proof (deleteSeries_loop_nil cmd2 (range_keys (tsmFiles cmd2))
                (printSeries (range_keys (series cmd2)) w0).2) as Hnil.
  destruct (deleteSeries_loop fault cmd2 _ _) as [[e|[]] w']; [done|]. simpl.
  split; [|done]. intros _. exists flags. split; [done|]. split; [done|].
  split; [by apply Hwalk|by apply Hload].
Qed.

Lemma processFiles_quiet cmd l : ∀ w,
  log_discard w = true →
  log_discard (processFiles fault cmd l w).2 = true ∧
  logged (processFiles fault cmd l w).2 = logged w.
Proof.
  induction l as [|g l IH]; intros w Hd; [done|].
  rewrite processFiles_cons.
  set (w1 := (fmt_Print (OutProcessingFile g) w).2).
  pose proof (processTSMFile_spec fault cmd g w1) as (Hdis & _).
  pose proof (processTSMFile_effects cmd g w1) as (_ & Hq & _).
  cbv zeta in Hdis. destruct (IH (processTSMFile fault cmd g w1).2) as [-> ->].
  - by rewrite Hdis.
  - split; [done|]. by rewrite Hq.
Qed.

Lemma deleteSeries_loop_quiet cmd keys : ∀ w,
  log_discard w = true →
  log_discard (deleteSeries_loop fault cmd keys w).2 = true ∧
  logged (deleteSeries_loop fault cmd keys w).2 = logged w.
Proof.
  induction keys as [|key keys IH]; intros w Hd; [done|].
  rewrite deleteSeries_loop_cons. destruct (tsmFiles cmd !! key) as [fs|]; [|by apply IH].
  destruct (processFiles_quiet cmd (sort_Strings fs)
              (fmt_Print (OutProcessingUnit key) w).2 Hd) as [Hd' Hl'].
  destruct (IH _ Hd') as [-> ->]. by rewrite Hl'.
Qed.

(** X15. Without the verbose flag a run logs nothing: the logger is set to
    discard before anything else happens, and whatever the run then does,
    the log is what it was. *)
Theorem Run_without_verbose_logs_nothing cmd args flags w :
  flag_Parse cmd args = inr flags →
  verbose flags = false →
  logged (Run fault cmd args w).2 = logged w ∧ log_discard (Run fault cmd args w).2 = true.
Proof.
  intros Hparse Hv. unfold Run. rewrite Hparse, Hv. simpl.
  set (w0 := mkWorld (files w) (stdout w) (logged w) true).
  destruct (bool_decide (seriesFile flags = "")); [done|].
  destruct (walkTSMFiles flags w0) as [[e|] cmd1]; [done|].
  destruct (parseSeriesFile fault cmd1 w0) as [[e|] cmd2]; [done|].
  destruct (printSeries_world (range_keys (series cmd2)) w0) as (_ & _ & Hl & Hd).
  unfold deleteSeries.
  destruct (deleteSeries_loop_quiet cmd2 (range_keys (tsmFiles cmd2))
              (printSeries (range_keys (series cmd2)) w0).2 Hd) as [Hd' Hl'].
  destruct (deleteSeries_loop fault cmd2 _ _) as [[e|[]] w']; simpl in *;
    by rewrite Hl', Hl.
Qed.

Lemma elem_of_default_lookup (m : gmap string (list string)) key f :
  f ∈ default [] (m !! key) ↔ ∃ fs, m !! key = Some fs ∧ f ∈ fs.
Proof.
  destruct (m !! key) as [fs|]; simpl.
  - split; [eauto|]. by intros (fs' & [= <-] & ?).
  - split; [by intros ?%elem_of_nil|by intros (fs' & ? & _)].
Qed.

(** The files of the units after a walk that started with no unit. *)
Lemma unitFiles_after_walk cmd w cmd1 f :
  tsmFiles cmd = ∅ →
  walkTSMFiles cmd w = (None, cmd1) →
  f ∈ unitFiles cmd1 ↔
  ∃ v, v ∈ filepath_Walk (files w) (dataDir cmd) ∧ f = wv_path v
       ∧ is_Some (unitKey cmd f).
Proof.
  intros Hempty Hwalk. unfold walkTSMFiles in Hwalk.
  pose proof (walk_loop_lists _ _ _ Hwalk) as Hlists.
  rewrite elem_of_unitFiles. split.
  - intros (key & fs & Hkey & Hf).
    assert (Hin : f ∈ default [] (tsmFiles cmd1 !! key)) by (by rewrite Hkey).
    rewrite Hlists, Hempty, lookup_empty in Hin. simpl in Hin.
    apply list_elem_of_fmap in Hin as (v & -> & Hv).
    apply list_elem_of_filter in Hv as [Hk Hv]. exists v. eauto.
  - intros (v & Hv & -> & key & Hk). exists key.
    apply (proj1 (elem_of_default_lookup (tsmFiles cmd1) key (wv_path v))).
    rewrite Hlists. apply elem_of_app. right.
    apply list_elem_of_fmap. exists v. split; [done|]. by apply list_elem_of_filter.
Qed.

(** X16. A whole run none of whose calls fails: when the flags parse with
    no unit yet in the command and name a series file that exists, no visit
    of the walk fails, every path the locator accepts is a segment file and
    the temporary paths of one accepted path do not reach another, [Run]
    returns nil, the filter set is the one of the flags with the lines of
    the series file added, and every accepted path ends up holding its
    blocks whose series key is not in that filter set, in their order. *)
Theorem Run_rewrites_every_located_file cmd args flags w (orig : string → list Block) :
  flag_Parse cmd args = inr flags →
  tsmFiles flags = ∅ →
  seriesFile flags ≠ "" →
  (∀ op, fault op = false) →
  ¬ locateFails flags w →
  is_Some (files w !! seriesFile flags) →
  let accepted f :=
    (∃ v, v ∈ filepath_Walk (files w) (dataDir flags) ∧ f = wv_path v
          ∧ is_Some (unitKey flags f)) in
  (∀ f, accepted f → files w !! f = Some (Segment (orig f))) →
  (∀ f g, accepted f → accepted g → f ≠ g → apart g f) →
  let res := Run fault cmd args w in
  let lines := scanLines (from_option file_bytes "" (files w !! seriesFile flags)) in
  res.1.1 = None ∧
  FilterSet res.1.2 = FilterSet flags ∪ list_to_set lines ∧
  ∀ f, accepted f → files res.2 !! f = Some (Segment (keptBlocks res.1.2 (orig f))).
Proof.
  intros Hparse Hempty Hsf Hok Hlocate Hfile accepted Hseg Hapart res lines.
  unfold res, Run. rewrite Hparse.
  set (w0 := if negb (verbose flags) then _ else w).
  assert (Hw0 : files w0 = files w) by (subst w0; by destruct (verbose flags)).
  rewrite bool_decide_eq_false_2 by done.
  pose proof (walkTSMFiles_nil_iff flags w0) as Hwalk.
  rewrite (locateFails_files flags w w0 Hw0) in Hwalk.
  destruct (walkTSMFiles flags w0) as [r1 cmd1] eqn:Hw.
  simpl in Hwalk. apply Hwalk in Hlocate as ->.
  pose proof (unitFiles_after_walk flags w0 cmd1) as Hunits.
  rewrite Hw0 in Hunits.
  pose proof Hw as Hw'. apply walkTSMFiles_spec in Hw' as ([m ->] & _).
  assert (Hload : ¬ loadFails fault flags w).
  { intros [Hnone|[Hf|(i & _ & Hf)]]; [|by rewrite Hok in Hf..].
    destruct Hfile as [x Hx]. congruence. }
  pose proof (parseSeriesFile_nil_iff (set_tsmFiles flags m) w0) as Hp.
  rewrite (loadFails_files flags m w w0 Hw0) in Hp.
  pose proof (parseSeriesFile_series (set_tsmFiles flags m) w0) as Hseries.
  destruct (parseSeriesFile fault (set_tsmFiles flags m) w0) as [r2 cmd2] eqn:Hparse2.
  simpl in Hp, Hseries. apply Hp in Hload as ->.
  destruct (Hseries eq_refl) as (Hcmd2 & _ & Hfilter).
  rewrite Hw0 in Hfilter. simpl in Hfilter.
  destruct (printSeries_world (range_keys (series cmd2)) w0) as (_ & Hf1 & _).
  set (w1 := (printSeries (range_keys (series cmd2)) w0).2) in *.
  assert (Hunits2 : ∀ f, f ∈ unitFiles cmd2 ↔ accepted f).
  { intros f. unfold accepted. rewrite <- (Hunits f Hempty Hw).
    assert (unitFiles cmd2 = unitFiles (set_tsmFiles flags m)) as -> by (by rewrite Hcmd2).
    done. }
  destruct (deleteSeries_ok cmd2 w1 orig Hok) as (Hnil & Hall & _).
  { intros f Hf. rewrite Hf1, Hw0. apply Hseg. by apply Hunits2. }
  { intros f g Hf Hg. apply Hapart; by apply Hunits2. }
  unfold returned in Hnil.
  destruct (deleteSeries fault cmd2 w1) as [[e|[]] w2]; [done|]. simpl in *.
  split; [done|]. split; [done|].
  intros f Hf. apply Hall. by apply Hunits2.
Qed.

Lemma sort_Strings_Permutation l l' : l ≡ₚ l' → sort_Strings l = sort_Strings l'.
Proof.
  intros Hperm. unfold sort_Strings.
  apply (StronglySorted_unique String.le).
  - apply (StronglySorted_merge_sort String.le).
  - apply (StronglySorted_merge_sort String.le).
  - by rewrite !merge_sort_Permutation.
Qed.

(** X17. The order in which the locator found the files of a unit does not
    matter: [deleteFromTSMFiles] gives the same result and leaves the same
    world for any two orderings of the same files. *)
Theorem deleteFromTSMFiles_order_independent cmd l l' w :
  l ≡ₚ l' →
  deleteFromTSMFiles fault cmd l w = deleteFromTSMFiles fault cmd l' w.
Proof.
  intros Hperm. unfold deleteFromTSMFiles. by rewrite (sort_Strings_Permutation l l').
Qed.

(** X18. A run that returns an error has changed no file and printed
    nothing; the error is the flag parser's, or the missing series file
    flag, or the failure of a visit of the walk, or the failure to open or
    read the series file. *)
Theorem Run_error_before_any_output cmd args w e :
  (Run fault cmd args w).1.1 = Some e →
  files (Run fault cmd args w).2 = files w ∧
  stdout (Run fault cmd args w).2 = stdout w ∧
  (flag_Parse cmd args = inl e ∨
   ∃ flags, flag_Parse cmd args = inr flags ∧
     ((seriesFile flags = "" ∧ e = UsageError "-seriesFile flag required")
      ∨ (∃ v, v ∈ filepath_Walk (files w) (dataDir flags) ∧ visitFails flags v e)
      ∨ e = IOError (OpOpen (seriesFile flags))
      ∨ ∃ j, e = IOError (OpScan (seriesFile flags) j)
             ∧ fault (OpScan (seriesFile flags) j) = true)).
Proof.
  unfold Run. destruct (flag_Parse cmd args) as [e0|flags] eqn:Hparse.
  { intros [= <-]. simpl. auto. }
  set (w0 := if negb (verbose flags) then _ else w).
  assert (Hw0 : files w0 = files w ∧ stdout w0 = stdout w)
    by (subst w0; by destruct (verbose flags)).
  destruct Hw0 as [Hf0 Hs0].
  destruct (bool_decide (seriesFile flags = "")) eqn:Hsf.
  { apply bool_decide_eq_true in Hsf. intros [= <-]. simpl.
    split; [done|]. split; [done|]. right. exists flags. auto. }
  destruct (walkTSMFiles flags w0) as [[e1|] cmd1] eqn:Hw.
  { intros [= ->]. simpl. split; [done|]. split; [done|]. right. exists flags.
    split; [done|]. right. left.
    unfold walkTSMFiles in Hw. rewrite Hf0 in Hw.
    apply walk_loop_first_error in Hw as (pre & v & post & Hsplit & _ & Hfail).
    exists v. split; [|done]. rewrite Hsplit. apply elem_of_app. right. by left. }
  apply walkTSMFiles_spec in Hw as ([m ->] & _).
  destruct (parseSeriesFile fault (set_tsmFiles flags m) w0) as [[e2|] cmd2] eqn:Hp.
  { intros [= ->]. simpl. split; [done|]. split; [done|]. right. exists flags.
    split; [done|]. right. right.
    unfold parseSeriesFile, os_Open in Hp. simpl in Hp.
    destruct (fault (OpOpen (seriesFile flags))); [injection Hp as <- _; by left|].
    destruct (files w0 !! seriesFile flags) as [f|] eqn:Hfile;
      [|injection Hp as <- _; by left].
    destruct (scan_loop_full (seriesFile flags) (scanLines (file_bytes f)) 0
                (set_tsmFiles flags m)) as (j & _ & _ & _ & _ & Hres).
    rewrite ?Hfile in Hp. simpl in Hp. rewrite Hp in Hres. simpl in Hres. destruct Hres as [-> Hj].
    right. by exists j. }
  unfold deleteSeries.
  pose proof (deleteSeries_loop_nil cmd2 (range_keys (tsmFiles cmd2))
                (printSeries (range_keys (series cmd2)) w0).2) as Hnil.
  by destruct (deleteSeries_loop fault cmd2 _ _) as [[e3|[]] w'].
Qed.

(** X19. Running [deleteSeries] a second time changes nothing in the files
    of the units: under the conditions of a run none of whose calls fails,
    every file of every unit is after the second run what the first run
    made it. *)
Theorem deleteSeries_twice cmd w (orig : string → list Block) :
  (∀ op, fault op = false) →
  (∀ f, f ∈ unitFiles cmd → files w !! f = Some (Segment (orig f))) →
  (∀ f g, f ∈ unitFiles cmd → g ∈ unitFiles cmd → f ≠ g → apart g f) →
  let res1 := deleteSeries fault cmd w in
  let res2 := deleteSeries fault cmd res1.2 in
  returned res1 = None ∧ returned res2 = None ∧
  ∀ f, f ∈ unitFiles cmd → files res2.2 !! f = files res1.2 !! f.
Proof.
  intros Hok Hfiles Hapart res1 res2.
  destruct (deleteSeries_ok cmd w orig Hok Hfiles Hapart) as (Hr1 & Hall1 & _).
  fold res1 in Hr1, Hall1.
  destruct (deleteSeries_ok cmd res1.2 (λ f, keptBlocks cmd (orig f)) Hok Hall1 Hapart)
    as (Hr2 & Hall2 & _).
  fold res2 in Hr2, Hall2.
  split; [done|]. split; [done|]. intros f Hf.
  by rewrite Hall2, Hall1, keptBlocks_idemp.
Qed.

(** X20. The error of a rewrite names a call that failed: when the input
    is a segment and [processTSMFile] returns an error, some call of the
    rewrite failed and the error is the error of that call, wrapped with
    the path when the call is the opening of the reader. *)
Theorem processTSMFile_error_names_failed_call cmd path w blocks e :
  files w !! path = Some (Segment blocks) →
  returned (processTSMFile fault cmd path w) = Some e →
  ∃ op, op ∈ rewriteSteps cmd path blocks ∧ fault op = true ∧
        (e = IOError op
         ∨ (op = OpNewTSMReader path ∧ e = ReadError path (IOError op))).
Proof.
  intros Hfile. unfold returned.
  destruct (processTSMFile fault cmd path w) as [res w'] eqn:Hrun. cbn [fst].
  assert (Hstep : ∀ op, fault op = true →
            op = OpOpen path ∨ op = OpNewTSMReader path ∨
            op = OpRemoveAll (outputPathOf path) ∨ op = OpRemoveAll (idxPathOf path) ∨
            op = OpCreate (outputPathOf path) ∨ op = OpNewTSMWriter (outputPathOf path) ∨
            (∃ j, j < length blocks ∧ op = OpRead path j) ∨
            (∃ j, j < length (keptBlocks cmd blocks)
                  ∧ op = OpWriteBlock (outputPathOf path) j) ∨
            op = OpWriteIndex (outputPathOf path) ∨ op = OpClose (outputPathOf path) ∨
            op = OpRename (outputPathOf path) path →
            ∃ op', op' ∈ rewriteSteps cmd path blocks ∧ fault op' = true ∧
                   (IOError op = IOError op'
                    ∨ (op' = OpNewTSMReader path
                       ∧ IOError op = ReadError path (IOError op')))).
  { intros op Hop Hin. exists op. split; [by apply rewriteSteps_elem|]. by split; [|left]. }
  unfold processTSMFile in Hrun.
  fold (outputPathOf path) in Hrun. fold (idxPathOf path) in Hrun.
  unfold bind at 1, os_Open in Hrun. rewrite Hfile in Hrun.
  destruct (fault (OpOpen path)) eqn:F1.
  { injection Hrun as <- <-. intros [= <-]. apply Hstep; auto. }
  unfold bind at 1, NewTSMReader in Hrun. rewrite Hfile in Hrun.
  destruct (fault (OpNewTSMReader path)) eqn:F2.
  { injection Hrun as <- <-. intros [= <-]. exists (OpNewTSMReader path).
    split; [apply rewriteSteps_elem; auto|]. split; [done|]. by right. }
  unfold bind at 1, os_RemoveAll in Hrun.
  destruct (fault (OpRemoveAll (outputPathOf path))) eqn:F3.
  { injection Hrun as <- <-. intros [= <-]. apply Hstep; auto 20. }
  unfold bind at 1 in Hrun.
  destruct (fault (OpRemoveAll (idxPathOf path))) eqn:F4.
  { injection Hrun as <- <-. intros [= <-]. apply Hstep; auto 20. }
  unfold bind at 1, log_Printf in Hrun.
  unfold bind at 1, os_Create in Hrun.
  destruct (fault (OpCreate (outputPathOf path))) eqn:F5.
  { injection Hrun as <- <-. intros [= <-]. apply Hstep; auto 20. }
  unfold bind at 1, NewTSMWriter, bind at 1, attempt in Hrun.
  destruct (fault (OpNewTSMWriter (outputPathOf path))) eqn:F6.
  { injection Hrun as <- <-. intros [= <-]. apply Hstep; auto 20. }
  unfold bind at 1, ret in Hrun.
  match type of Hrun with context [rewriteBlocks _ _ ?r 0 ?bs ?tw 0 ?w4] =>
    pose proof (rewriteBlocks_spec fault cmd r bs 0 tw 0 w4) as Hloop;
    destruct (rewriteBlocks fault cmd r 0 bs tw 0 w4) as [[e1|[tw' d']] w5]
  end; cbn [fst snd] in Hloop; simpl in Hloop;
  destruct Hloop as (_ & _ & _ & Hloop).
  { injection Hrun as <- <-. intros [= <-].
    destruct Hloop as (op & -> & Hop & Hwhich). apply (Hstep op Hop). tauto. }
  destruct Hloop as (-> & -> & _ & _).
  cbn [fst snd] in Hrun.
  unfold bind at 1, fmt_Print in Hrun.
  unfold bind at 1, WriteIndex, attempt in Hrun. cbn [w_path w_written] in Hrun.
  destruct (fault (OpWriteIndex (outputPathOf path))) eqn:F7.
  { injection Hrun as <- <-. intros [= <-]. apply Hstep; auto 20. }
  unfold bind at 1, Close, bind at 1, attempt in Hrun. cbn [w_path w_written] in Hrun.
  destruct (fault (OpClose (outputPathOf path))) eqn:F8.
  { injection Hrun as <- <-. intros [= <-]. apply Hstep; auto 20. }
  unfold os_Rename in Hrun. simpl in Hrun.
  rewrite lookup_insert_eq in Hrun.
  destruct (fault (OpRename (outputPathOf path) path)) eqn:F9.
  { injection Hrun as <- <-. intros [= <-]. apply Hstep; auto 20. }
  by injection Hrun as <- <-.
Qed.

End Coverage.

(** * The properties on concrete inputs *)

Section Concrete.

Import Demo.

Example filepath_Ext_tsm : filepath_Ext "/d/db/rp/1/000001-01.tsm" = ".tsm".
Proof. reflexivity. Qed.

Example filepath_Ext_dir_dot : filepath_Ext "/d/db.x/rp" = "".
Proof. reflexivity. Qed.

Example strings_Split_rel : strings_Split "db/rp/1/f.tsm" "/"%char = ["db"; "rp"; "1"; "f.tsm"].
Proof. reflexivity. Qed.

Example strings_Split_one : strings_Split "f.tsm" "/"%char = ["f.tsm"].
Proof. reflexivity. Qed.

Example scanLines_ex :
  scanLines ("cpu,host=a" +:+ String "010"%char ("" +:+ String "010"%char "mem,")) = ["cpu,host=a"; ""; "mem,"].
Proof. reflexivity. Qed.

Example sort_Strings_ex : sort_Strings ["b/2.tsm"; "a/10.tsm"; "a/1.tsm"] = ["a/1.tsm"; "a/10.tsm"; "b/2.tsm"].
Proof. reflexivity. Qed.

(** With [no_fault] every call succeeds. *)
Lemma no_fault_ok (l : list IOOp) : ∀ op, op ∈ l → no_fault op = false.
Proof. done. Qed.


(** The same rewrite when [WriteIndex] fails. *)
Lemma processTSMFile_error_keeps_original_witness :
  let res := processTSMFile fail_WriteIndex cmdF path1 world1 in
  (∃ e, returned res = Some e) ∧ files res.2 !! path1 = files world1 !! path1.
Proof.
  apply (processTSMFile_error_keeps_original fail_WriteIndex cmdF path1 world1).
  left. unfold failsBeforeRename.
  change (files world1 !! path1) with (Some (Segment segment1)).
  exists (OpWriteIndex (outputPathOf path1)).
  split; [|done]. apply rewriteSteps_elem. auto 20.
Defined.

(** A run whose series file does not exist. *)
Lemma Run_aborts_before_touching_files_witness :
  let res := Run no_fault NewCommand ["-dataDir"; "/data"; "-seriesFile"; "/missing.txt"] world1 in
  (∃ e, res.1.1 = Some e) ∧ files res.2 = files world1.
Proof.
  apply (Run_aborts_before_touching_files no_fault NewCommand
           ["-dataDir"; "/data"; "-seriesFile"; "/missing.txt"]
           (mkCommand "/data" "" "" "/missing.txt" false false ∅ ∅) world1).
  - reflexivity.
  - right. left. reflexivity.
Defined.





(** The block of the tagless series [cpu]. *)
Lemma formatSerieKey_tagless_trailing_comma_witness :
  formatSerieKey cmdM (SeriesAndFieldFromCompositeKey taglessBlock.(blk_key)).1
    = ("cpu,", None) ∧
  serieKeyOf cmdM taglessBlock = "cpu," ∧
  serieKeyOf cmdM taglessBlock ≠ "cpu" ∧
  (FilterSet cmdM = {["cpu"]} →
   (serieKeyOf cmdM taglessBlock ∉ FilterSet cmdM) ∧
   (∀ path w blocks,
      files w !! path = Some (Segment blocks) →
      taglessBlock ∈ blocks →
      (∀ op, op ∈ rewriteSteps cmdM path blocks → no_fault op = false) →
      ∃ kept, files (processTSMFile no_fault cmdM path w).2 !! path = Some (Segment kept)
              ∧ taglessBlock ∈ kept)).
Proof.
  apply (formatSerieKey_tagless_trailing_comma no_fault cmdM taglessBlock "cpu").
  reflexivity.
Defined.



(** C6 on a concrete unit: the first file of the unit is not a TSM file and
    its rewrite returns an error; [deleteFromTSMFiles] nevertheless goes on
    to the second file, rewrites it, and returns nil, and so does [Run]. *)
Theorem deleteFromTSMFiles_discards_rewrite_error :
  let bad := processTSMFile no_fault cmdF pathA world2 in
  let res := deleteFromTSMFiles no_fault cmdF [pathA; pathB] world2 in
  let run := Run no_fault NewCommand ["-dataDir"; "/data"; "-seriesFile"; "/series.txt"] world2 in
  returned bad = Some (ReadError pathA (IOError (OpNewTSMReader pathA))) ∧
  returned res = None ∧
  processedFiles (stdout res.2) = [pathA; pathB] ∧
  files res.2 !! pathA = Some (Other "corrupt") ∧
  files res.2 !! pathB
    = Some (Segment [blk "cpu,host=b#!~#value"; blk "mem,host=a#!~#value"]) ∧
  run.1.1 = None ∧
  processedFiles (stdout run.2) = [pathA; pathB].
Proof. vm_compute. repeat split. Qed.

(** The rewrite of [path1] leaves the series file alone. *)
Lemma processTSMFile_touches_only_its_paths_witness :
  files (processTSMFile no_fault cmdF path1 world1).2 !! "/series.txt"
  = files world1 !! "/series.txt".
Proof.
  apply (processTSMFile_touches_only_its_paths no_fault cmdF path1 world1 "/series.txt");
    [done|reflexivity|reflexivity].
Defined.

(** The rewrite of a file that is not a TSM file. *)
Lemma processTSMFile_unreadable_input_changes_nothing_witness :
  ∃ e, processTSMFile no_fault cmdF pathA world2 = (inl e, world2) ∧
       (e = IOError (OpOpen pathA)
        ∨ e = ReadError pathA (IOError (OpNewTSMReader pathA))) ∧
       (files world2 !! pathA = None → e = IOError (OpOpen pathA)).
Proof.
  apply (processTSMFile_unreadable_input_changes_nothing no_fault cmdF pathA world2).
  right. right. left. exists "corrupt". reflexivity.
Defined.

Lemma processTSMFile_leaves_no_temporary_file_witness :
  let res := processTSMFile no_fault cmdF path1 world1 in
  files res.2 !! outputPathOf path1 = None ∧ files res.2 !! idxPathOf path1 = None.
Proof.
  apply (processTSMFile_leaves_no_temporary_file no_fault cmdF path1 world1 segment1).
  - reflexivity.
  - apply no_fault_ok.
Defined.

Lemma processTSMFile_logs_each_dropped_block_witness :
  let res := processTSMFile no_fault cmdF path1 world1 in
  logged res.2 =
    (if log_discard world1 then logged world1
     else logged world1 ++ LogCreatingTemp (outputPathOf path1)
                           :: map deletingLine (droppedBlocks cmdF segment1)) ∧
  (∀ path' w', log_discard w' = true →
               logged (processTSMFile no_fault cmdF path' w').2 = logged w').
Proof.
  apply (processTSMFile_logs_each_dropped_block no_fault cmdF path1 world1 segment1).
  - reflexivity.
  - apply no_fault_ok.
Defined.

(** The rewrite with an empty filter set. *)
Lemma processTSMFile_no_match_is_identity_witness :
  let res := processTSMFile no_fault cmd1 path1 world1 in
  returned res = None ∧
  files res.2 !! path1 = files world1 !! path1 ∧
  stdout res.2 = stdout world1 ++ [OutDropped 0].
Proof.
  apply (processTSMFile_no_match_is_identity no_fault cmd1 path1 world1 segment1).
  - reflexivity.
  - left. reflexivity.
  - apply no_fault_ok.
Defined.

Lemma walkTSMFiles_appends_in_walk_order_witness :
  let cmd' := (walkTSMFiles cmd1 world1).2 in
  cmd' = set_tsmFiles cmd1 (tsmFiles cmd') ∧
  ∀ key, default [] (tsmFiles cmd' !! key) =
         default [] (tsmFiles cmd1 !! key)
         ++ map wv_path (filter (λ v, unitKey cmd1 (wv_path v) = Some key)
                                (filepath_Walk (files world1) (dataDir cmd1))).
Proof.
  apply (walkTSMFiles_appends_in_walk_order cmd1 world1). reflexivity.
Defined.

(** The walk of a data directory with a segment file directly under it. *)
Lemma walkTSMFiles_stops_at_first_error_witness :
  ∃ pre v post,
    filepath_Walk (files world6) (dataDir cmd1) = pre ++ v :: post ∧
    visitFails cmd1 v (StructuralError pathShallow) ∧
    (∀ v' e', v' ∈ pre → ¬ visitFails cmd1 v' e') ∧
    walk_loop pre cmd1 = (None, (walkTSMFiles cmd1 world6).2).
Proof.
  apply (walkTSMFiles_stops_at_first_error cmd1 world6 (StructuralError pathShallow)).
  reflexivity.
Defined.

Lemma parseSeriesFile_loads_every_line_witness :
  let cmd' := (parseSeriesFile no_fault cmd1 world1).2 in
  let lines := scanLines (from_option file_bytes "" (files world1 !! seriesFile cmd1)) in
  cmd' = set_series cmd1 (series cmd') ∧
  (∀ k, series cmd' !! k = if decide (k ∈ lines) then Some true else series cmd1 !! k) ∧
  FilterSet cmd' = FilterSet cmd1 ∪ list_to_set lines.
Proof.
  apply (parseSeriesFile_loads_every_line no_fault cmd1 world1). reflexivity.
Defined.



Lemma unitFiles_cmdU : unitFiles cmdU = [path1].
Proof. reflexivity. Qed.

Lemma deleteSeries_rewrites_every_file_witness :
  let res := deleteSeries no_fault cmdU world1 in
  returned res = None ∧
  (∀ f, f ∈ unitFiles cmdU →
        files res.2 !! f = Some (Segment (keptBlocks cmdU segment1))) ∧
  (∀ p, (∀ g, g ∈ unitFiles cmdU → p ≠ g ∧ apart g p) →
        files res.2 !! p = files world1 !! p).
Proof.
  apply (deleteSeries_rewrites_every_file no_fault cmdU world1 (λ _, segment1)).
  - reflexivity.
  - intros f Hf. rewrite unitFiles_cmdU in Hf. apply list_elem_of_singleton in Hf.
    subst f. reflexivity.
  - intros f g Hf Hg Hne. rewrite unitFiles_cmdU in Hf, Hg.
    apply list_elem_of_singleton in Hf, Hg. congruence.
Defined.

Lemma deleteSeries_twice_witness :
  let res1 := deleteSeries no_fault cmdU world1 in
  let res2 := deleteSeries no_fault cmdU res1.2 in
  returned res1 = None ∧ returned res2 = None ∧
  ∀ f, f ∈ unitFiles cmdU → files res2.2 !! f = files res1.2 !! f.
Proof.
  apply (deleteSeries_twice no_fault cmdU world1 (λ _, segment1)).
  - reflexivity.
  - intros f Hf. rewrite unitFiles_cmdU in Hf. apply list_elem_of_singleton in Hf.
    subst f. reflexivity.
  - intros f g Hf Hg Hne. rewrite unitFiles_cmdU in Hf, Hg.
    apply list_elem_of_singleton in Hf, Hg. congruence.
Defined.

Lemma Run_without_verbose_logs_nothing_witness :
  let args := ["-dataDir"; "/data"; "-database"; "mydb"; "-seriesFile"; "/series.txt"] in
  logged (Run no_fault NewCommand args world1).2 = logged world1
  ∧ log_discard (Run no_fault NewCommand args world1).2 = true.
Proof.
  apply (Run_without_verbose_logs_nothing no_fault NewCommand
           ["-dataDir"; "/data"; "-database"; "mydb"; "-seriesFile"; "/series.txt"]
           cmd1 world1); reflexivity.
Defined.

Lemma deleteFromTSMFiles_order_independent_witness :
  deleteFromTSMFiles no_fault cmdF [pathA; pathB] world2
  = deleteFromTSMFiles no_fault cmdF [pathB; pathA] world2.
Proof.
  apply (deleteFromTSMFiles_order_independent no_fault cmdF [pathA; pathB] [pathB; pathA]).
  apply perm_swap.
Defined.

(** A run whose series file does not exist. *)
Lemma Run_error_before_any_output_witness :
  let args := ["-dataDir"; "/data"; "-seriesFile"; "/missing.txt"] in
  let e := IOError (OpOpen "/missing.txt") in
  files (Run no_fault NewCommand args world1).2 = files world1 ∧
  stdout (Run no_fault NewCommand args world1).2 = stdout world1 ∧
  (flag_Parse NewCommand args = inl e ∨
   ∃ flags, flag_Parse NewCommand args = inr flags ∧
     ((seriesFile flags = "" ∧ e = UsageError "-seriesFile flag required")
      ∨ (∃ v, v ∈ filepath_Walk (files world1) (dataDir flags) ∧ visitFails flags v e)
      ∨ e = IOError (OpOpen (seriesFile flags))
      ∨ ∃ j, e = IOError (OpScan (seriesFile flags) j)
             ∧ no_fault (OpScan (seriesFile flags) j) = true)).
Proof.
  apply (Run_error_before_any_output no_fault NewCommand
           ["-dataDir"; "/data"; "-seriesFile"; "/missing.txt"] world1
           (IOError (OpOpen "/missing.txt"))).
  reflexivity.
Defined.

(** The rewrite of [path1] when [WriteIndex] fails. *)
Lemma processTSMFile_error_names_failed_call_witness :
  let e := IOError (OpWriteIndex (outputPathOf path1)) in
  ∃ op, op ∈ rewriteSteps cmdF path1 segment1 ∧ fail_WriteIndex op = true ∧
        (e = IOError op
         ∨ (op = OpNewTSMReader path1 ∧ e = ReadError path1 (IOError op))).
Proof.
  apply (processTSMFile_error_names_failed_call fail_WriteIndex cmdF path1 world1 segment1
           (IOError (OpWriteIndex (outputPathOf path1)))); reflexivity.
Defined.

Lemma visits_world1 : filepath_Walk (files world1) (dataDir cmd1) = [mkVisit path1 None].
Proof. reflexivity. Qed.

(** The run of the command on the data directory with one segment file. *)
Lemma Run_rewrites_every_located_file_witness :
  let args := ["-dataDir"; "/data"; "-database"; "mydb"; "-seriesFile"; "/series.txt"] in
  let accepted f :=
    (∃ v, v ∈ filepath_Walk (files world1) (dataDir cmd1) ∧ f = wv_path v
          ∧ is_Some (unitKey cmd1 f)) in
  let res := Run no_fault NewCommand args world1 in
  let lines := scanLines (from_option file_bytes "" (files world1 !! seriesFile cmd1)) in
  res.1.1 = None ∧
  FilterSet res.1.2 = FilterSet cmd1 ∪ list_to_set lines ∧
  ∀ f, accepted f → files res.2 !! f = Some (Segment (keptBlocks res.1.2 segment1)).
Proof.
  apply (Run_rewrites_every_located_file no_fault NewCommand
           ["-dataDir"; "/data"; "-database"; "mydb"; "-seriesFile"; "/series.txt"]
           cmd1 world1 (λ _, segment1)).
  - reflexivity.
  - reflexivity.
  - done.
  - reflexivity.
  - intros (v & Hv & Hbad). rewrite visits_world1 in Hv.
    apply list_elem_of_singleton in Hv. subst v.
    destruct Hbad as [[e He]|(_ & [[e He]|(rel & Hrel & Hlen)])].
    + discriminate He.
    + vm_compute in He. discriminate He.
    + vm_compute in Hrel. injection Hrel as <-. vm_compute in Hlen. lia.
  - eexists. reflexivity.
  - intros f (v & Hv & -> & _). rewrite visits_world1 in Hv.
    apply list_elem_of_singleton in Hv. subst v. reflexivity.
  - intros f g (v & Hv & -> & _) (v' & Hv' & -> & _) Hne. rewrite visits_world1 in Hv, Hv'.
    apply list_elem_of_singleton in Hv, Hv'. congruence.
Defined.

End Concrete.
